(** * webfront: the attribute validation layer and the render tree

    A shallow embedding of [src/webfront/html/attributes.py],
    [src/webfront/html/elements.py] and [src/webfront/html/page.py].

    Conventions.
    - A Python [str] is a [string]; every character is read as the code
      point of the same number, so the model covers U+0000 .. U+00FF.
    - A constructor [C.__init__] that may raise becomes a function into
      [result]; the instance it builds is a record holding [self.value].
    - [ValueError] is what the specification calls InvalidValue and
      [RuntimeError] what it calls RegistryUnavailable.
    - The class attributes of [Type] (the registry cache) are the fields of
      an explicit [process] state threaded through [Type.__init__]. *)

From Stdlib Require Import Ascii String NArith.
From stdpp Require Import gmap strings list functions relations.

Local Open Scope string_scope.
Set Warnings "-register-all,-clear-no-such-hyp".
Arguments String.append !s1 s2 / : simpl nomatch.

(** ** Python's built-in string operations *)

Module PyStr.

Definition code (c : ascii) : N := N_of_ascii c.

Definition between (lo hi n : N) : bool := ((lo <=? n) && (n <=? hi))%N.

(** [str.isspace] on one character: TAB..CR, FS..US, SPACE, NEL, NBSP. *)
Definition isspace (c : ascii) : bool :=
  between 9 13 (code c) || between 28 32 (code c)
  || (code c =? 133)%N || (code c =? 160)%N.

(** [str.lower] on one character: A..Z and the Latin-1 capitals. *)
Definition lower_char (c : ascii) : ascii :=
  if between 65 90 (code c)
     || (between 192 222 (code c) && negb (code c =? 215)%N)
  then ascii_of_N (code c + 32)
  else c.

Fixpoint lower (s : string) : string :=
  match s with
  | EmptyString => EmptyString
  | String c s' => String (lower_char c) (lower s')
  end.

Fixpoint lstrip (s : string) : string :=
  match s with
  | EmptyString => EmptyString
  | String c s' => if isspace c then lstrip s' else s
  end.

Fixpoint rstrip (s : string) : string :=
  match s with
  | EmptyString => EmptyString
  | String c s' =>
      match rstrip s' with
      | EmptyString => if isspace c then EmptyString else String c EmptyString
      | r => String c r
      end
  end.

(** [s.strip()] *)
Definition strip (s : string) : string := rstrip (lstrip s).

Definition starts_word (s : string) : bool :=
  match s with
  | EmptyString => false
  | String c _ => negb (isspace c)
  end.

(** Puts [c] in front of the first piece of [pieces]. *)
Definition push_char (c : ascii) (pieces : list string) : list string :=
  match pieces with
  | [] => [String c EmptyString]
  | t :: ts => String c t :: ts
  end.

(** [s.split()]: the maximal runs of non-whitespace characters. *)
Fixpoint split (s : string) : list string :=
  match s with
  | EmptyString => []
  | String c s' =>
      if isspace c then split s'
      else if starts_word s' then push_char c (split s')
      else String c EmptyString :: split s'
  end.

(** [s.split(sep)] for a one-character separator: never empty, keeps
    empty pieces. *)
Fixpoint split_on (sep : ascii) (s : string) : list string :=
  match s with
  | EmptyString => [EmptyString]
  | String c s' =>
      if decide (c = sep) then EmptyString :: split_on sep s'
      else push_char c (split_on sep s')
  end.

(** [s.split(sep, 1)]: the part before the first [sep] and, when there
    is a [sep], the part after it. *)
Fixpoint split_once (sep : ascii) (s : string) : string * option string :=
  match s with
  | EmptyString => (EmptyString, None)
  | String c s' =>
      if decide (c = sep) then (EmptyString, Some s')
      else let '(a, b) := split_once sep s' in (String c a, b)
  end.

(** [sep in s] for a one-character [sep]. *)
Fixpoint contains (sep : ascii) (s : string) : bool :=
  match s with
  | EmptyString => false
  | String c s' => bool_decide (c = sep) || contains sep s'
  end.

(** [sep.join(pieces)] *)
Fixpoint join (sep : string) (pieces : list string) : string :=
  match pieces with
  | [] => EmptyString
  | [p] => p
  | p :: ps => p +:+ sep +:+ join sep ps
  end.

Fixpoint all_chars (P : ascii → bool) (s : string) : bool :=
  match s with
  | EmptyString => true
  | String c s' => P c && all_chars P s'
  end.

(** The double-quote character, U+0022. *)
Definition dquote : string := String "034" EmptyString.

(** The horizontal tab, U+0009. *)
Definition tab : string := String "009" EmptyString.

End PyStr.

Import PyStr.

(** ** Exceptions and results *)

Inductive exception : Set :=
| ValueError       (* InvalidValue in the specification *)
| RuntimeError     (* RegistryUnavailable in the specification *)
| TypeCheckError.  (* raised by the [@typechecked] argument check *)

Inductive result (A : Type) : Type :=
| Ok (a : A)
| Raise (e : exception).
Arguments Ok {A} a.
Arguments Raise {A} e.

Global Instance exception_eq_dec : EqDecision exception.
Proof. solve_decision. Defined.

(** ** attributes.py *)

(** [Attribute] is the abstract base class: its one abstract method is
    [render]. *)
Class Attribute (A : Type) := render : A → string.

(** The f-string every [render] method returns: the key, an equals sign
    and the value between double quotes. *)
Definition key_value (key value : string) : string :=
  key +:+ "=" +:+ dquote +:+ value +:+ dquote.

Record Lang := mkLang { Lang_value : string }.
Record Dir := mkDir { Dir_value : string }.
Record Charset := mkCharset { Charset_value : string }.
Record Name := mkName { Name_value : string }.
Record Content := mkContent { Content_value : string }.
Record Rel := mkRel { Rel_value : string }.
Record Href := mkHref { Href_value : string }.
Record Type_ := mkType { Type_value : string }.
Record Sizes := mkSizes { Sizes_value : string }.

Global Instance Lang_render : Attribute Lang :=
  λ self, key_value "lang" (Lang_value self).
Global Instance Dir_render : Attribute Dir :=
  λ self, key_value "dir" (Dir_value self).
Global Instance Charset_render : Attribute Charset :=
  λ self, key_value "charset" (Charset_value self).
Global Instance Name_render : Attribute Name :=
  λ self, key_value "name" (Name_value self).
Global Instance Content_render : Attribute Content :=
  λ self, key_value "content" (Content_value self).
Global Instance Rel_render : Attribute Rel :=
  λ self, key_value "rel" (Rel_value self).
Global Instance Href_render : Attribute Href :=
  λ self, key_value "href" (Href_value self).
Global Instance Type_render : Attribute Type_ :=
  λ self, key_value "type" (Type_value self).
Global Instance Sizes_render : Attribute Sizes :=
  λ self, key_value "sizes" (Sizes_value self).

(** The argument check [@typechecked] performs for a parameter annotated
    [Literal[...]] of strings: the value has to be one of the listed
    literals. *)
Definition check_Literal (allowed : list string) (value : string) : bool :=
  bool_decide (value ∈ allowed).

Section Lang.

(** [langcodes] is a third-party package.  [Language_get tag] stands for
    [langcodes.Language.get(tag).to_tag()]: [None] when [Language.get]
    raises [LanguageTagError], the tag in canonical form otherwise. *)
Variable Language_get : string → option string.

Definition is_valid_bcp47 (tag : string) : bool :=
  match Language_get tag with
  | Some _ => true
  | None => false
  end.

Definition Lang_init (value : string) : result Lang :=
  if decide (value = EmptyString) then Ok (mkLang value)
  else match Language_get value with
       | Some tag => Ok (mkLang tag)
       | None => Raise ValueError
       end.

End Lang.

Definition Dir_init (value : string) : result Dir :=
  if check_Literal ["ltr"; "rtl"; "auto"] value then Ok (mkDir value)
  else Raise TypeCheckError.

Definition Charset_init (value : string) : result Charset :=
  if check_Literal ["utf-8"; "latin-1"] value then Ok (mkCharset value)
  else Raise TypeCheckError.

Definition Name_init (value : string) : result Name := Ok (mkName value).

Definition Content_init (value : string) : result Content :=
  Ok (mkContent value).

Definition Rel_init (value : string) : result Rel :=
  let v := strip value in
  if decide (v = EmptyString) then Raise ValueError
  else
    let tokens := split v in
    let lowered := lower <$> tokens in
    if decide (size (list_to_set (C := gset string) lowered) ≠ length lowered)
    then Raise ValueError
    else Ok (mkRel (join " " lowered)).

Definition Href_init (value : string) : result Href :=
  if decide (value = EmptyString) then Raise ValueError
  else Ok (mkHref value).

(** [_SIZE_RE = ^[1-9][0-9]*x[1-9][0-9]*$], used with [fullmatch]. *)
Module SizeRe.

Definition digit (c : ascii) : bool := between 48 57 (code c).
Definition digit19 (c : ascii) : bool := between 49 57 (code c).

(** [[0-9]*$] *)
Definition height_tail (s : string) : bool := all_chars digit s.

(** [[1-9][0-9]*$] *)
Definition height (s : string) : bool :=
  match s with
  | EmptyString => false
  | String c s' => digit19 c && height_tail s'
  end.

(** [[0-9]*x[1-9][0-9]*$] *)
Fixpoint width_tail (s : string) : bool :=
  match s with
  | EmptyString => false
  | String c s' =>
      if digit c then width_tail s'
      else bool_decide (c = "x"%char) && height s'
  end.

Definition fullmatch (s : string) : bool :=
  match s with
  | EmptyString => false
  | String c s' => digit19 c && width_tail s'
  end.

End SizeRe.

Definition Sizes_init (value : string) : result Sizes :=
  let v := strip value in
  if decide (v = EmptyString) then Raise ValueError
  else if decide (lower v = "any") then Ok (mkSizes "any")
  else
    let tokens := split v in
    if forallb SizeRe.fullmatch tokens then Ok (mkSizes (join " " tokens))
    else Raise ValueError.

(** *** The media-type registry behind [Type] *)

(** What [Type._try_load_iana_mime_types] reads of an
    [xml.etree.ElementTree.Element]: the tag, the attribute dictionary,
    the text and the children. *)
Inductive ET_Element : Type :=
| mkElement (tag : string) (attrib : gmap string string)
            (text : option string) (children : list ET_Element).

Definition ET_tag (e : ET_Element) : string :=
  match e with mkElement tag _ _ _ => tag end.
Definition ET_attrib (e : ET_Element) : gmap string string :=
  match e with mkElement _ attrib _ _ => attrib end.
Definition ET_text (e : ET_Element) : option string :=
  match e with mkElement _ _ text _ => text end.
Definition ET_children (e : ET_Element) : list ET_Element :=
  match e with mkElement _ _ _ children => children end.

(** [root.iter()]: the element itself, then its descendants in document
    order. *)
Fixpoint ET_iter (e : ET_Element) : list ET_Element :=
  match e with
  | mkElement _ _ _ children => e :: flat_map ET_iter children
  end.

(** [tag.split(closing brace, 1)[-1]] *)
Definition _strip_ns (tag : string) : string :=
  match split_once "}" tag with
  | (_, Some rest) => rest
  | (whole, None) => whole
  end.

Definition _FALLBACK_KNOWN : gset string :=
  {[ "image/png"; "image/jpeg"; "image/gif"; "image/webp"; "image/avif";
     "image/svg+xml"; "image/x-icon"; "text/css"; "text/javascript";
     "application/javascript"; "application/json"; "application/wasm";
     "font/woff"; "font/woff2" ]}.

Definition top_levels : gset string :=
  {[ "application"; "audio"; "font"; "image"; "message";
     "model"; "multipart"; "text"; "video" ]}.

(** The inner loop over [list(elem)]: the first child whose tag is
    [name]. *)
Definition find_name (elem : ET_Element) : option ET_Element :=
  find (λ child, bool_decide (_strip_ns (ET_tag child) = "name"))
       (ET_children elem).

(** One turn of [for elem in root.iter()], on the loop's two variables
    [mime_types] and [current_top]. *)
Definition scan_elem (vars : gset string * option string) (elem : ET_Element)
  : gset string * option string :=
  let '(mime_types, current_top) := vars in
  let tag := _strip_ns (ET_tag elem) in
  if decide (tag = "registry") then
    match ET_attrib elem !! "id" with
    | Some reg_id =>
        if decide (reg_id ∈ top_levels) then (mime_types, Some reg_id)
        else vars
    | None => vars
    end
  else
    match current_top with
    | Some top =>
        if decide (tag = "record") then
          match find_name elem with
          | None => vars
          | Some name_elem =>
              let subtype := strip (default EmptyString (ET_text name_elem)) in
              if decide (subtype = EmptyString) then vars
              else ({[ lower (top +:+ "/" +:+ subtype) ]} ∪ mime_types,
                    current_top)
          end
        else vars
    | None => vars
    end.

(** The set [mime_types] after the loop. *)
Definition parse_registry (root : ET_Element) : gset string :=
  (foldl scan_elem (∅, None) (ET_iter root)).1.

(** What the [try] block of [_try_load_iana_mime_types] ends in: an
    exception from [urlopen], [read] or [fromstring], or the parsed
    root. *)
Inductive response : Type :=
| Failure
| Document (root : ET_Element).

(** The class attributes [Type._iana_mime_types] and [Type._iana_failed],
    and the number of [urlopen] calls made so far. *)
Record process : Type := mkProcess {
  _iana_mime_types : option (gset string);
  _iana_failed : bool;
  requests : nat
}.

(** The state of a fresh interpreter. *)
Definition start : process :=
  {| _iana_mime_types := None; _iana_failed := false; requests := 0 |}.

(** [_TOKEN_RE = ^[A-Za-z0-9!#$&^_.+-]+$], used with [fullmatch]. *)
Module TokenRe.

Definition token_char (c : ascii) : bool :=
  between 65 90 (code c) || between 97 122 (code c)
  || between 48 57 (code c) || contains c "!#$&^_.+-".

Definition fullmatch (s : string) : bool :=
  match s with
  | EmptyString => false
  | String _ _ => all_chars token_char s
  end.

End TokenRe.

Section Registry.

(** The network: [urlopen n] is what the [n]-th request of the process
    (counting from 0) ends in. *)
Variable urlopen : nat → response.

(** Both tests at the top of the method, and again under the lock. *)
Definition cached (st : process) : option (option (gset string)) :=
  match _iana_mime_types st with
  | Some known => Some (Some known)
  | None => if _iana_failed st then Some None else None
  end.

Definition _try_load_iana_mime_types (st : process)
  : option (gset string) * process :=
  match cached st with
  | Some answer => (answer, st)
  | None =>
      (* with cls._lock: *)
      match cached st with
      | Some answer => (answer, st)
      | None =>
          let asked :=
            {| _iana_mime_types := _iana_mime_types st;
               _iana_failed := _iana_failed st;
               requests := S (requests st) |} in
          match urlopen (requests st) with
          | Failure =>
              (None, {| _iana_mime_types := _iana_mime_types asked;
                        _iana_failed := true;
                        requests := requests asked |})
          | Document root =>
              let mime_types := parse_registry root in
              if decide (mime_types = ∅) then
                (None, {| _iana_mime_types := _iana_mime_types asked;
                          _iana_failed := true;
                          requests := requests asked |})
              else
                (Some mime_types,
                 {| _iana_mime_types := Some mime_types;
                    _iana_failed := _iana_failed asked;
                    requests := requests asked |})
          end
      end
  end.

(** The value [Type.__init__] stores: the candidate, then the
    parameters when the list [params] is not empty. *)
Definition normalized (candidate : string) (params : list string) : string :=
  match params with
  | [] => candidate
  | _ :: _ => candidate +:+ "; " +:+ join "; " params
  end.

(** The registry test of [Type.__init__]: the exception it raises, if
    any. *)
Definition registry_verdict (registry : option (gset string))
    (strict_registry : bool) (candidate : string) : option exception :=
  match registry with
  | Some known =>
      if decide (candidate ∉ known) then Some ValueError else None
  | None =>
      if strict_registry then Some RuntimeError
      else if decide (candidate ∉ _FALLBACK_KNOWN) then Some ValueError
      else None
  end.

(** [Type.__init__].  The two unpacking statements raise [ValueError]
    themselves when the right-hand side has too few items. *)
Definition Type_init (value : string) (strict_registry : bool) (st : process)
  : result Type_ * process :=
  let v := strip value in
  if decide (v = EmptyString) then (Raise ValueError, st)
  else
    match strip <$> split_on ";" v with
    | [] => (Raise ValueError, st)
    | main :: params =>
        if negb (contains "/" main) then (Raise ValueError, st)
        else
          match split_once "/" main with
          | (_, None) => (Raise ValueError, st)
          | (t0, Some sub0) =>
              let t := strip t0 in
              let sub := strip sub0 in
              if bool_decide (t = EmptyString) || bool_decide (sub = EmptyString)
              then (Raise ValueError, st)
              else if negb (TokenRe.fullmatch t) || negb (TokenRe.fullmatch sub)
              then (Raise ValueError, st)
              else
                let candidate := lower t +:+ "/" +:+ lower sub in
                let '(registry, st') := _try_load_iana_mime_types st in
                match registry_verdict registry strict_registry candidate with
                | Some e => (Raise e, st')
                | None => (Ok (mkType (normalized candidate params)), st')
                end
          end
    end.

(** A process that builds one [Type] after the other. *)
Definition construct_all (calls : list (string * bool)) (st : process)
  : process :=
  foldl (λ st call, (Type_init call.1 call.2 st).2) st calls.

End Registry.

(** ** elements.py and page.py *)

Inductive Element : Type :=
| DocType
| HTML (lang : option Lang) (dir : option Dir) (children : list Element)
| Head (children : list Element)
| Body (children : list Element)
| Title (value : string)
| MetaCharset (charset : Charset)
| MetaViewport (name : Name) (content : Content)
| LinkIcon (rel : Rel) (href : Href) (type_ : option Type_)
           (sizes : option Sizes).

(** The values an instance dictionary of an element holds. *)
Inductive object : Type :=
| PyNone
| PyStr (s : string)
| PyList (items : list Element)
| PyAttribute {A : Type} `{Attribute A} (a : A).

Definition optional {A : Type} `{Attribute A} (slot : option A) : object :=
  match slot with
  | Some a => PyAttribute a
  | None => PyNone
  end.

(** [self.__dict__]: the instance attributes in the order the [__init__]
    methods assign them ([ContainerElement.__init__] runs first in
    [HTML.__init__]). *)
Definition __dict__ (self : Element) : list (string * object) :=
  match self with
  | DocType => []
  | HTML lang dir children =>
      [("children", PyList children); ("lang", optional lang);
       ("dir", optional dir)]
  | Head children | Body children => [("children", PyList children)]
  | Title value => [("value", PyStr value)]
  | MetaCharset charset => [("charset", PyAttribute charset)]
  | MetaViewport name content =>
      [("name", PyAttribute name); ("content", PyAttribute content)]
  | LinkIcon rel href type_ sizes =>
      [("rel", PyAttribute rel); ("href", PyAttribute href);
       ("type", optional type_); ("sizes", optional sizes)]
  end.

(** [AttributedElement.render_attributes] *)
Definition render_attributes (self : Element) : string :=
  let rendered :=
    omap (λ item, match item.2 with
                  | PyAttribute a => Some (render a)
                  | _ => None
                  end) (__dict__ self) in
  match rendered with
  | [] => EmptyString
  | _ :: _ => " " +:+ join " " rendered
  end.

(** [Element.render], with [ContainerElement.render_children] inlined as
    the join over the children. *)
Fixpoint Element_render (self : Element) : string :=
  let render_children (children : list Element) :=
    join EmptyString (map Element_render children) in
  match self with
  | DocType => "<!DOCTYPE html>"
  | HTML _ _ children =>
      "<html" +:+ render_attributes self +:+ ">"
      +:+ render_children children +:+ "</html>"
  | Head children => "<head>" +:+ render_children children +:+ "</head>"
  | Body children => "<body>" +:+ render_children children +:+ "</body>"
  | Title value => "<title>" +:+ value +:+ "</title>"
  | MetaCharset _ | MetaViewport _ _ => "<meta" +:+ render_attributes self +:+ ">"
  | LinkIcon _ _ _ _ => "<link" +:+ render_attributes self +:+ ">"
  end.

(** [HTML.__init__]: [children or []]. *)
Definition HTML_init (lang : option Lang) (dir_ : option Dir)
    (children : option (list Element)) : Element :=
  HTML lang dir_ (default [] children).

Record Page := mkPage { Page_children : list Element }.

(** [Page.__init__]; [@typechecked] lets only an [HTML] instance in. *)
Definition Page_init (html_element : Element) : result Page :=
  match html_element with
  | HTML _ _ _ => Ok (mkPage [DocType; html_element])
  | _ => Raise TypeCheckError
  end.

Definition Page_render (self : Page) : string :=
  join EmptyString (map Element_render (Page_children self)).

(** ** Shapes of inputs *)

(** Only whitespace (the empty string included). *)
Definition blank (s : string) : Prop := all_chars isspace s = true.

(** A non-empty run of characters none of which is whitespace. *)
Definition word (s : string) : Prop :=
  s ≠ EmptyString ∧ all_chars (λ c, negb (isspace c)) s = true.

(** Equal up to case, in the sense the constructors use it: equal once
    lower-cased. *)
Definition same_ignoring_case (a b : string) : Prop := lower a = lower b.

(** A decimal numeral of a positive integer without leading zeros, in the
    words of the specification: digits only, at least one, the first one
    not a zero. *)
Definition positive_integer (s : string) : Prop :=
  s ≠ EmptyString
  ∧ all_chars SizeRe.digit s = true
  ∧ ∀ rest, s ≠ String "0" rest.

(** A size token in the words of the specification: a positive integer,
    the letter x, a positive integer. *)
Definition size_token (s : string) : Prop :=
  ∃ w h, s = w +:+ "x" +:+ h ∧ positive_integer w ∧ positive_integer h.

(** Tokens laid out on a line: whitespace [lead], then every token followed
    by its own run of whitespace. *)
Fixpoint layout (items : list (string * string)) : string :=
  match items with
  | [] => EmptyString
  | (token, gap) :: rest => token +:+ gap +:+ layout rest
  end.

(** Every token is a word, every gap is whitespace, and only the last gap
    may be empty. *)
Fixpoint well_spaced (items : list (string * string)) : Prop :=
  match items with
  | [] => True
  | (token, gap) :: rest =>
      word token ∧ blank gap
      ∧ (gap = EmptyString → rest = []) ∧ well_spaced rest
  end.

(** What the specification asks of the text of a media type, steps 1 to 4:
    the stripped input is cut at every semicolon and the pieces stripped;
    the first piece [main] has a slash, with no slash before it, between
    [t0] and [sub0]; both, stripped, match the token pattern; the candidate
    is their lower-cased forms around a slash; [params] are the other
    pieces. *)
Definition well_formed (value candidate : string) (params : list string)
  : Prop :=
  ∃ main t0 sub0,
    ¬ blank value
    ∧ strip <$> split_on ";" (strip value) = main :: params
    ∧ main = t0 +:+ "/" +:+ sub0
    ∧ contains "/" t0 = false
    ∧ TokenRe.fullmatch (strip t0) = true
    ∧ TokenRe.fullmatch (strip sub0) = true
    ∧ candidate = lower (strip t0) +:+ "/" +:+ lower (strip sub0).

(** The restricted token pattern in the words of the specification, with
    no reference to the regular expression of the code: a character of a
    token is a letter, a digit or one of the nine marks [!#$&^_.+-], and a
    token is one such character or more. *)
Definition in_range (lo hi c : ascii) : Prop :=
  (nat_of_ascii lo ≤ nat_of_ascii c ∧ nat_of_ascii c ≤ nat_of_ascii hi)%nat.

Definition token_character (c : ascii) : Prop :=
  in_range "A" "Z" c ∨ in_range "a" "z" c ∨ in_range "0" "9" c
  ∨ c ∈ ["!"; "#"; "$"; "&"; "^"; "_"; "."; "+"; "-"]%char.

Definition token (s : string) : Prop :=
  s ≠ EmptyString ∧ Forall token_character (list_ascii_of_string s).


(** The set that governs validation, if any: the registry when the lookup
    returned one, the fallback set when it did not and the caller is not
    strict. *)
Definition in_force (registry : option (gset string)) (strict_registry : bool)
  : option (gset string) :=
  match registry with
  | Some known => Some known
  | None => if strict_registry then None else Some _FALLBACK_KNOWN
  end.

(** A stand-in for [langcodes] with two entries, for running the
    constructors. *)
Definition two_tags (tag : string) : option string :=
  if decide (tag = "en") then Some "en"
  else if decide (tag = "fr-ca") then Some "fr-CA"
  else None.

(** A network on which every request fails. *)
Definition offline : nat → response := λ _, Failure.

(** A registry document with one registry, [image], of two records. *)
Definition sample_document : ET_Element :=
  let record (subtype : string) :=
    mkElement "{http://www.iana.org/assignments}record" ∅ None
      [mkElement "{http://www.iana.org/assignments}name" ∅ (Some subtype) [];
       mkElement "{http://www.iana.org/assignments}xref" ∅ None []] in
  mkElement "{http://www.iana.org/assignments}registry"
    {[ "id" := "media-types" ]} None
    [mkElement "{http://www.iana.org/assignments}title" ∅
       (Some "Media Types") [];
     mkElement "{http://www.iana.org/assignments}registry"
       {[ "id" := "image" ]} None
       [record "png"; record " SVG+xml "]].

(** A network that serves [sample_document] to every request. *)
Definition online : nat → response := λ _, Document sample_document.

(** ** Threads in [Type._try_load_iana_mime_types]

    The method once more, statement by statement, for any number of threads
    that share the class attributes and [Type._lock].  A thread is at one
    of the program points below (named by the source line it is about to
    run); every step runs one statement of one thread. *)

Inductive pc : Type :=
| Idle                               (* outside the method *)
| L195                               (* if cls._iana_mime_types is not None *)
| L197                               (* if cls._iana_failed *)
| L200                               (* with cls._lock: *)
| L201                               (* the first test again, lock held *)
| L203                               (* the second test again, lock held *)
| L207                               (* urlopen, read, fromstring *)
| L211                               (* except: cls._iana_failed = True *)
| L212                               (* return None, leaving the with block *)
| L214 (root : ET_Element)           (* the loop over root.iter() *)
| L243                               (* cls._iana_failed = True *)
| L244                               (* return None, leaving the with block *)
| L246 (mime_types : gset string)    (* cls._iana_mime_types = mime_types *)
| L247 (mime_types : gset string)    (* return, leaving the with block *)
| Returned (answer : option (gset string)).

Record threads : Type := mkThreads {
  shared : process;
  lock : option nat;                 (* the thread that holds [Type._lock] *)
  at_pc : nat → pc
}.

(** All threads outside the method, in a fresh interpreter. *)
Definition boot : threads :=
  {| shared := start; lock := None; at_pc := λ _, Idle |}.

Definition set_failed (st : process) : process :=
  {| _iana_mime_types := _iana_mime_types st;
     _iana_failed := true;
     requests := requests st |}.

Definition set_mime_types (mime_types : gset string) (st : process)
  : process :=
  {| _iana_mime_types := Some mime_types;
     _iana_failed := _iana_failed st;
     requests := requests st |}.

Definition count_request (st : process) : process :=
  {| _iana_mime_types := _iana_mime_types st;
     _iana_failed := _iana_failed st;
     requests := S (requests st) |}.

Section Threads.

Variable urlopen : nat → response.

Inductive step : threads → threads → Prop :=
| step_call c i :
    at_pc c i = Idle →
    step c (mkThreads (shared c) (lock c) (<[i := L195]> (at_pc c)))
| step_195_hit c i known :
    at_pc c i = L195 → _iana_mime_types (shared c) = Some known →
    step c (mkThreads (shared c) (lock c)
              (<[i := Returned (Some known)]> (at_pc c)))
| step_195_miss c i :
    at_pc c i = L195 → _iana_mime_types (shared c) = None →
    step c (mkThreads (shared c) (lock c) (<[i := L197]> (at_pc c)))
| step_197_failed c i :
    at_pc c i = L197 → _iana_failed (shared c) = true →
    step c (mkThreads (shared c) (lock c) (<[i := Returned None]> (at_pc c)))
| step_197_go c i :
    at_pc c i = L197 → _iana_failed (shared c) = false →
    step c (mkThreads (shared c) (lock c) (<[i := L200]> (at_pc c)))
| step_200_acquire c i :
    at_pc c i = L200 → lock c = None →
    step c (mkThreads (shared c) (Some i) (<[i := L201]> (at_pc c)))
| step_201_hit c i known :
    at_pc c i = L201 → _iana_mime_types (shared c) = Some known →
    step c (mkThreads (shared c) None
              (<[i := Returned (Some known)]> (at_pc c)))
| step_201_miss c i :
    at_pc c i = L201 → _iana_mime_types (shared c) = None →
    step c (mkThreads (shared c) (lock c) (<[i := L203]> (at_pc c)))
| step_203_failed c i :
    at_pc c i = L203 → _iana_failed (shared c) = true →
    step c (mkThreads (shared c) None (<[i := Returned None]> (at_pc c)))
| step_203_go c i :
    at_pc c i = L203 → _iana_failed (shared c) = false →
    step c (mkThreads (shared c) (lock c) (<[i := L207]> (at_pc c)))
| step_207_raises c i :
    at_pc c i = L207 → urlopen (requests (shared c)) = Failure →
    step c (mkThreads (count_request (shared c)) (lock c)
              (<[i := L211]> (at_pc c)))
| step_207_root c i root :
    at_pc c i = L207 → urlopen (requests (shared c)) = Document root →
    step c (mkThreads (count_request (shared c)) (lock c)
              (<[i := L214 root]> (at_pc c)))
| step_211 c i :
    at_pc c i = L211 →
    step c (mkThreads (set_failed (shared c)) (lock c)
              (<[i := L212]> (at_pc c)))
| step_212 c i :
    at_pc c i = L212 →
    step c (mkThreads (shared c) None (<[i := Returned None]> (at_pc c)))
| step_214_empty c i root :
    at_pc c i = L214 root → parse_registry root = ∅ →
    step c (mkThreads (shared c) (lock c) (<[i := L243]> (at_pc c)))
| step_214_found c i root :
    at_pc c i = L214 root → parse_registry root ≠ ∅ →
    step c (mkThreads (shared c) (lock c)
              (<[i := L246 (parse_registry root)]> (at_pc c)))
| step_243 c i :
    at_pc c i = L243 →
    step c (mkThreads (set_failed (shared c)) (lock c)
              (<[i := L244]> (at_pc c)))
| step_244 c i :
    at_pc c i = L244 →
    step c (mkThreads (shared c) None (<[i := Returned None]> (at_pc c)))
| step_246 c i mime_types :
    at_pc c i = L246 mime_types →
    step c (mkThreads (set_mime_types mime_types (shared c)) (lock c)
              (<[i := L247 mime_types]> (at_pc c)))
| step_247 c i mime_types :
    at_pc c i = L247 mime_types →
    step c (mkThreads (shared c) None
              (<[i := Returned (Some mime_types)]> (at_pc c)))
| step_return c i answer :
    at_pc c i = Returned answer →
    step c (mkThreads (shared c) (lock c) (<[i := Idle]> (at_pc c))).

End Threads.

(** Inside the [with] block. *)
Definition holding (p : pc) : bool :=
  match p with
  | L201 | L203 | L207 | L211 | L212 | L214 _ | L243 | L244
  | L246 _ | L247 _ => true
  | _ => false
  end.

(** The request was made and its outcome is not recorded yet. *)
Definition recording (p : pc) : bool :=
  match p with
  | L211 | L214 _ | L243 | L246 _ => true
  | _ => false
  end.

(** Inside the block, both tests passed, nothing recorded yet. *)
Definition undecided (p : pc) : bool :=
  match p with
  | L207 | L211 | L214 _ | L243 | L246 _ => true
  | _ => false
  end.

(** The failure is recorded and the thread is about to return, or has
    returned, [None]. *)
Definition gave_up (p : pc) : bool :=
  match p with
  | L212 | L244 | Returned None => true
  | _ => false
  end.

(** The set is recorded and the thread is about to return it, or has
    returned it. *)
Definition got (p : pc) : option (gset string) :=
  match p with
  | L247 mime_types | Returned (Some mime_types) => Some mime_types
  | _ => None
  end.

(** What every reachable state of the threads satisfies. *)
Record coherent (c : threads) : Prop := mkCoherent {
  coherent_lock : ∀ i, holding (at_pc c i) = true ↔ lock c = Some i;
  coherent_203 : ∀ i, at_pc c i = L203 → _iana_mime_types (shared c) = None;
  coherent_undecided :
    ∀ i, undecided (at_pc c i) = true → cached (shared c) = None;
  coherent_once : (requests (shared c) ≤ 1)%nat;
  coherent_zero :
    requests (shared c) = 0%nat
    ∨ cached (shared c) ≠ None
    ∨ ∃ i, recording (at_pc c i) = true;
  coherent_got :
    ∀ i mime_types,
      got (at_pc c i) = Some mime_types →
      _iana_mime_types (shared c) = Some mime_types;
  coherent_gave_up :
    ∀ i, gave_up (at_pc c i) = true → _iana_failed (shared c) = true;
  coherent_either :
    _iana_failed (shared c) = true → _iana_mime_types (shared c) = None
}.

(** At most one request so far, and none while nothing is cached. *)
Definition asked_once (st : process) : Prop :=
  (requests st ≤ 1)%nat ∧ (cached st = None → requests st = 0%nat).

(** The text of the first [name] child of a [record] element, stripped,
    when the element is a record that has one and the text is not blank. *)
Definition record_subtype (elem : ET_Element) : option string :=
  if decide (_strip_ns (ET_tag elem) = "record") then
    match find_name elem with
    | Some name_elem =>
        let subtype := strip (default EmptyString (ET_text name_elem)) in
        if decide (subtype = EmptyString) then None else Some subtype
    | None => None
    end
  else None.

(** The [id] of a [registry] element when it is one of [top_levels]. *)
Definition listed_registry (elem : ET_Element) : option string :=
  if decide (_strip_ns (ET_tag elem) = "registry") then
    match ET_attrib elem !! "id" with
    | Some reg_id => if decide (reg_id ∈ top_levels) then Some reg_id else None
    | None => None
    end
  else None.

(** [m] is the lower-cased pair of the id of a listed registry and the
    subtype of a record, both elements of the document. *)
Definition filed (root : ET_Element) (m : string) : Prop :=
  ∃ reg rec top subtype,
    reg ∈ ET_iter root ∧ rec ∈ ET_iter root
    ∧ listed_registry reg = Some top
    ∧ record_subtype rec = Some subtype
    ∧ m = lower (top +:+ "/" +:+ subtype).

(** A registry document in which a registry that is not listed, [haptics],
    follows a listed one, [font]. *)
Definition haptics_document : ET_Element :=
  let record (subtype : string) :=
    mkElement "record" ∅ None [mkElement "name" ∅ (Some subtype) []] in
  mkElement "registry" {[ "id" := "media-types" ]} None
    [mkElement "registry" {[ "id" := "font" ]} None [record "woff"];
     mkElement "registry" {[ "id" := "haptics" ]} None [record "ivs"]].

(** A registry document with no listed registry. *)
Definition unlisted_document : ET_Element :=
  mkElement "registry" {[ "id" := "haptics" ]} None
    [mkElement "record" ∅ None [mkElement "name" ∅ (Some "ivs") []]].

(** The rendering of an optional attribute slot: a space and the attribute,
    or nothing. *)
Definition slot {A : Type} `{Attribute A} (a : option A) : string :=
  match a with
  | Some a => " " +:+ render a
  | None => EmptyString
  end.

(** [ContainerElement.render_children] *)
Definition render_children (children : list Element) : string :=
  join EmptyString (map Element_render children).

(** ** resource/icon/component.py *)

Definition _EXT_TO_MIME : gmap string string :=
  {[ ".png" := "image/png"; ".svg" := "image/svg+xml";
     ".ico" := "image/x-icon"; ".jpg" := "image/jpeg";
     ".jpeg" := "image/jpeg"; ".webp" := "image/webp";
     ".gif" := "image/gif" ]}.

(** [Icon._infer_type_from_path], on [path.suffix]. *)
Definition _infer_type_from_path (suffix : string) : option string :=
  _EXT_TO_MIME !! lower suffix.

(** ** Facts about the string operations *)

(** Case analysis on the 256 characters. *)
Ltac each_char c :=
  destruct c as [[] [] [] [] [] [] [] []]; vm_compute; try done.

Section PyStrFacts.

Implicit Types (s t w : string) (c : ascii).

Lemma blank_cons c s : blank (String c s) ↔ isspace c = true ∧ blank s.
Proof. unfold blank; simpl. apply andb_true_iff. Qed.

Lemma blank_app w s : blank w → blank s → blank (w +:+ s).
Proof.
  induction w as [|c w IH]; simpl; [done|].
  rewrite !blank_cons. intros [Hc Hw] Hs. split; auto.
Qed.

Lemma lstrip_blank s : blank s → lstrip s = EmptyString.
Proof.
  induction s as [|c s IH]; [done|].
  rewrite blank_cons. intros [Hc Hs]. simpl. by rewrite Hc; auto.
Qed.

Lemma lstrip_blank_inv s : blank (lstrip s) → blank s.
Proof.
  induction s as [|c s IH]; [done|]. simpl.
  destruct (isspace c) eqn:Hc; [|done].
  intros H. apply blank_cons. auto.
Qed.

Lemma rstrip_empty s : rstrip s = EmptyString → blank s.
Proof.
  induction s as [|c s IH]; [done|]. simpl.
  destruct (rstrip s) eqn:Hr; [|done].
  destruct (isspace c) eqn:Hc; [|done].
  intros _. apply blank_cons. auto.
Qed.

Lemma rstrip_blank s : blank s → rstrip s = EmptyString.
Proof.
  induction s as [|c s IH]; [done|].
  rewrite blank_cons. intros [Hc Hs]. simpl. by rewrite IH, Hc.
Qed.

Lemma strip_empty_iff s : strip s = EmptyString ↔ blank s.
Proof.
  unfold strip. split.
  - intros H. by apply lstrip_blank_inv, rstrip_empty.
  - intros H. by rewrite lstrip_blank.
Qed.

Lemma starts_word_blank s : blank s → starts_word s = false.
Proof.
  destruct s as [|c s]; [done|].
  rewrite blank_cons. intros [Hc _]. simpl. by rewrite Hc.
Qed.

Lemma split_blank s : blank s → split s = [].
Proof.
  induction s as [|c s IH]; [done|].
  rewrite blank_cons. intros [Hc Hs]. simpl. rewrite Hc. auto.
Qed.

Lemma split_lstrip s : split (lstrip s) = split s.
Proof.
  induction s as [|c s IH]; [done|]. simpl.
  destruct (isspace c) eqn:Hc; [done|]. simpl. by rewrite Hc.
Qed.

Lemma starts_word_rstrip s :
  rstrip s ≠ EmptyString → starts_word (rstrip s) = starts_word s.
Proof.
  destruct s as [|c s]; [done|]. simpl.
  destruct (rstrip s); [|done].
  destruct (isspace c) eqn:Hc; [done|]. intros _. simpl. by rewrite Hc.
Qed.

Lemma split_rstrip s : split (rstrip s) = split s.
Proof.
  induction s as [|c s IH]; [done|].
  cbn [rstrip]. destruct (rstrip s) as [|c' r] eqn:Hr.
  - apply rstrip_empty in Hr. cbn [split].
    rewrite (split_blank s Hr), (starts_word_blank s Hr).
    by destruct (isspace c) eqn:Hc; simpl; rewrite ?Hc.
  - assert (Hsw : starts_word (String c' r) = starts_word s).
    { rewrite <- Hr. apply starts_word_rstrip. by rewrite Hr. }
    remember (String c' r) as r' eqn:Hr'.
    cbn [split]. by rewrite Hsw, IH.
Qed.

Lemma split_strip s : split (strip s) = split s.
Proof. unfold strip. by rewrite split_rstrip, split_lstrip. Qed.

Lemma split_blank_app w s : blank w → split (w +:+ s) = split s.
Proof.
  induction w as [|c w IH]; [done|].
  rewrite blank_cons. intros [Hc Hw]. simpl. rewrite Hc. auto.
Qed.

Lemma word_cons c t :
  word (String c t) ↔ isspace c = false ∧ (t = EmptyString ∨ word t).
Proof.
  unfold word; simpl. rewrite andb_true_iff, negb_true_iff. split.
  - intros [_ [Hc Ht]]. split; [done|]. destruct t; [by left|by right].
  - intros [Hc [->|[_ Ht]]]; by repeat split.
Qed.

Lemma split_word_app t s :
  word t → starts_word s = false → split (t +:+ s) = t :: split s.
Proof.
  intros Ht Hs. induction t as [|c t IH]; [by destruct Ht|].
  apply word_cons in Ht as [Hc Ht]. simpl. rewrite Hc.
  destruct Ht as [->|Ht].
  - simpl. by rewrite Hs.
  - rewrite (IH Ht). destruct t as [|c' t]; [by destruct Ht|].
    apply word_cons in Ht as [Hc' _]. simpl. by rewrite Hc'.
Qed.

Lemma split_layout lead items :
  blank lead → well_spaced items → split (lead +:+ layout items) = items.*1.
Proof.
  intros Hlead Hitems. rewrite split_blank_app by done. clear lead Hlead.
  induction items as [|[token gap] rest IH]; [done|].
  destruct Hitems as (Htoken & Hgap & Hlast & Hrest). simpl.
  rewrite split_word_app, split_blank_app, IH; try done.
  destruct gap as [|c gap].
  - rewrite Hlast by done. done.
  - apply blank_cons in Hgap as [Hc _]. simpl. by rewrite Hc.
Qed.

Lemma isspace_lower_char c : isspace (lower_char c) = isspace c.
Proof. each_char c. Qed.

Lemma digit19_spec c :
  SizeRe.digit19 c = true ↔ SizeRe.digit c = true ∧ c ≠ "0"%char.
Proof. each_char c; naive_solver. Qed.

Lemma lower_any_single s : lower s = "any" → split s = [s].
Proof.
  destruct s as [|c1 [|c2 [|c3 [|c4 s]]]]; try done.
  intros [= H1 H2 H3].
  pose proof (isspace_lower_char c1) as E1.
  pose proof (isspace_lower_char c2) as E2.
  pose proof (isspace_lower_char c3) as E3.
  rewrite H1 in E1. rewrite H2 in E2. rewrite H3 in E3.
  simpl. by rewrite <- E1, <- E2, <- E3.
Qed.

End PyStrFacts.

(** Runs the program on a closed input. *)
Ltac run :=
  lazymatch goal with
  | |- @eq _ _ _ => vm_compute; reflexivity
  end.

(** ** Facts about sets of tokens *)

Lemma size_list_to_set_le (l : list string) :
  (size (list_to_set (C := gset string) l) ≤ length l)%nat.
Proof.
  induction l as [|x l IH].
  - rewrite list_to_set_nil, size_empty. done.
  - rewrite list_to_set_cons. cbn [length].
    pose proof (size_union_alt ({[x]} : gset string) (list_to_set l)) as Hu.
    pose proof (subseteq_size (list_to_set l ∖ {[x]}) (list_to_set l : gset string)) as Hd.
    rewrite size_singleton in Hu.
    assert (list_to_set l ∖ {[x]} ⊆ (list_to_set l : gset string)) as Hsub by set_solver.
    specialize (Hd Hsub). lia.
Qed.

Lemma size_list_to_set_NoDup (l : list string) :
  size (list_to_set (C := gset string) l) = length l ↔ NoDup l.
Proof.
  split; [|apply size_list_to_set].
  induction l as [|x l IH]; simpl; [constructor|].
  intros Hsize. destruct (decide (x ∈ l)) as [Hin|Hnotin].
  - exfalso.
    assert ({[x]} ∪ list_to_set l = (list_to_set l : gset string)) as Heq
      by (apply leibniz_equiv; set_solver).
    rewrite Heq in Hsize. pose proof (size_list_to_set_le l). lia.
  - rewrite size_union in Hsize by set_solver.
    rewrite size_singleton in Hsize.
    constructor; [done|]. apply IH. lia.
Qed.

Lemma NoDup_lookup_distinct (l : list string) i j a :
  NoDup l → i ≠ j → l !! i = Some a → l !! j = Some a → False.
Proof. intros Hnd Hij Hi Hj. by apply Hij, (NoDup_lookup l i j a). Qed.

(** ** [Rel] *)

Lemma Rel_init_unfold value :
  Rel_init value =
    if decide (blank value) then Raise ValueError
    else if decide (NoDup (lower <$> split value))
         then Ok (mkRel (join " " (lower <$> split value)))
         else Raise ValueError.
Proof.
  unfold Rel_init. rewrite split_strip.
  destruct (decide (blank value)) as [Hb|Hb].
  - rewrite decide_True by (by apply strip_empty_iff). done.
  - rewrite decide_False by (by rewrite strip_empty_iff).
    destruct (decide (NoDup (lower <$> split value))) as [Hn|Hn].
    + rewrite decide_False; [done|].
      intros Hs. by apply Hs, size_list_to_set_NoDup.
    + rewrite decide_True; [done|]. by rewrite size_list_to_set_NoDup.
Qed.

(** C5.  [Rel] rejects the empty string; otherwise the input is split on
    whitespace and every token lower-cased; the construction succeeds exactly
    when no two tokens are equal ignoring case, and then stores the
    lower-cased tokens, in their order, joined by single spaces; every
    failure is a [ValueError].  [ICON Icon] fails, [icon preload] is stored
    and rendered as it is. *)
Theorem Rel_init_spec :
  Rel_init EmptyString = Raise ValueError
  ∧ (∀ value r,
        Rel_init value = Ok r ↔
        ¬ blank value
        ∧ NoDup (lower <$> split value)
        ∧ r = mkRel (join " " (lower <$> split value)))
  ∧ (∀ value e, Rel_init value = Raise e → e = ValueError)
  ∧ (∀ value i j a b,
        i ≠ j → split value !! i = Some a → split value !! j = Some b →
        same_ignoring_case a b → Rel_init value = Raise ValueError)
  ∧ Rel_init "ICON Icon" = Raise ValueError
  ∧ Rel_init "icon preload" = Ok (mkRel "icon preload")
  ∧ render (mkRel "icon preload")
    = "rel=" +:+ dquote +:+ "icon preload" +:+ dquote.
Proof.
  split_and!; try run.
  - intros value r. rewrite Rel_init_unfold.
    repeat case_decide; naive_solver.
  - intros value e. rewrite Rel_init_unfold.
    repeat case_decide; congruence.
  - intros value i j a b Hij Hi Hj Hab. rewrite Rel_init_unfold.
    repeat case_decide; try done. exfalso.
    eapply (NoDup_lookup_distinct (lower <$> split value) i j (lower a));
      [done|done| |].
    + by rewrite list_lookup_fmap, Hi.
    + rewrite list_lookup_fmap, Hj. simpl. by rewrite Hab.
Qed.

(** ** [Dir] *)

(** C9.  [Dir] is built exactly from [ltr], [rtl] and [auto]; any other
    value is turned away by the argument check before the body runs; a
    value that was accepted is rendered unchanged. *)
Theorem Dir_init_spec :
  (∀ value d,
      Dir_init value = Ok d ↔
      value ∈ ["ltr"; "rtl"; "auto"] ∧ d = mkDir value)
  ∧ (∀ value,
        value ∉ ["ltr"; "rtl"; "auto"] → Dir_init value = Raise TypeCheckError)
  ∧ (∀ value d,
        Dir_init value = Ok d →
        render d = "dir=" +:+ dquote +:+ value +:+ dquote).
Proof.
  unfold Dir_init, check_Literal. split_and!.
  - intros value d. case_bool_decide; naive_solver.
  - intros value Hout. by case_bool_decide.
  - intros value d. case_bool_decide; [|done]. by intros [= <-].
Qed.

(** ** [Sizes] *)

Section SizeReFacts.

Import SizeRe.

Lemma width_tail_inv s :
  width_tail s = true →
  ∃ d h, s = d +:+ "x" +:+ h ∧ all_chars digit d = true ∧ height h = true.
Proof.
  induction s as [|c s IH]; [done|]. simpl.
  destruct (digit c) eqn:Hc.
  - intros (d & h & -> & Hd & Hh)%IH.
    exists (String c d), h. simpl. by rewrite Hc.
  - intros [Hx Hh]%andb_true_iff. apply bool_decide_eq_true in Hx as ->.
    by exists EmptyString, s.
Qed.

Lemma width_tail_app d h :
  all_chars digit d = true → width_tail (d +:+ String "x" h) = height h.
Proof.
  induction d as [|c d IH]; simpl; [done|].
  intros [Hc Hd]%andb_true_iff. rewrite Hc. auto.
Qed.

Lemma height_spec s : height s = true ↔ positive_integer s.
Proof.
  unfold positive_integer. destruct s as [|c s]; simpl.
  - split; [done|]. by intros [? _].
  - rewrite !andb_true_iff, digit19_spec. split.
    + intros [[Hc Hz] Hs]. split_and!; try done. by intros rest [= ->].
    + intros (_ & [Hc Hs] & Hz). split_and!; try done.
      intros ->. by apply (Hz s).
Qed.

Lemma fullmatch_spec s : fullmatch s = true ↔ size_token s.
Proof.
  unfold size_token. split.
  - destruct s as [|c s]; [done|]. simpl.
    intros [Hc (d & h & -> & Hd & Hh)%width_tail_inv]%andb_true_iff.
    exists (String c d), h. split_and!; [done| |by apply height_spec].
    apply height_spec. simpl. by rewrite Hc.
  - intros (w & h & -> & Hw%height_spec & Hh%height_spec).
    destruct w as [|c d]; [done|]. simpl in *.
    apply andb_true_iff in Hw as [Hc Hd]. rewrite Hc. simpl.
    by rewrite width_tail_app.
Qed.

Lemma forallb_fullmatch tokens :
  forallb fullmatch tokens = true ↔ Forall size_token tokens.
Proof.
  induction tokens as [|t ts IH]; simpl.
  - split; [constructor|done].
  - rewrite andb_true_iff, Forall_cons, IH, fullmatch_spec. done.
Qed.

End SizeReFacts.

Lemma Sizes_init_ok value r :
  Sizes_init value = Ok r ↔
  ¬ blank value
  ∧ ((lower (strip value) = "any" ∧ r = mkSizes "any")
     ∨ (lower (strip value) ≠ "any"
        ∧ Forall size_token (split value)
        ∧ r = mkSizes (join " " (split value)))).
Proof.
  unfold Sizes_init. rewrite split_strip, <- strip_empty_iff.
  destruct (decide (strip value = EmptyString)); [naive_solver|].
  destruct (decide (lower (strip value) = "any")); [naive_solver|].
  destruct (forallb SizeRe.fullmatch (split value)) eqn:Hall.
  - apply forallb_fullmatch in Hall. naive_solver.
  - split; [done|]. intros (_ & [[? _]|(_ & Hall' & _)]); [done|].
    apply forallb_fullmatch in Hall'. congruence.
Qed.

Lemma Sizes_init_raise value e : Sizes_init value = Raise e → e = ValueError.
Proof.
  unfold Sizes_init. repeat case_decide; try congruence.
  destruct (forallb _ _); congruence.
Qed.

(** C6.  [Sizes] rejects the empty string; [any], in any case and only as
    the whole stripped input, is stored as [any]; otherwise the construction
    succeeds exactly when every whitespace-separated token is a positive
    integer, the letter x and a positive integer, none with a leading zero,
    and it stores the tokens joined by single spaces; every failure is a
    [ValueError].  [32x32 64x64] is stored unchanged; [0x10], [32X32] and
    [32x] fail; [any] and [ANY] are stored as [any]. *)
Theorem Sizes_init_spec :
  Sizes_init EmptyString = Raise ValueError
  ∧ (∀ value r,
        Sizes_init value = Ok r ↔
        ¬ blank value
        ∧ ((lower (strip value) = "any" ∧ r = mkSizes "any")
           ∨ (lower (strip value) ≠ "any"
              ∧ Forall size_token (split value)
              ∧ r = mkSizes (join " " (split value)))))
  ∧ (∀ value e, Sizes_init value = Raise e → e = ValueError)
  ∧ (∀ value token,
        lower (strip value) ≠ "any" → token ∈ split value →
        ¬ size_token token → Sizes_init value = Raise ValueError)
  ∧ Sizes_init "32x32 64x64" = Ok (mkSizes "32x32 64x64")
  ∧ render (mkSizes "32x32 64x64")
    = "sizes=" +:+ dquote +:+ "32x32 64x64" +:+ dquote
  ∧ Sizes_init "0x10" = Raise ValueError
  ∧ Sizes_init "32X32" = Raise ValueError
  ∧ Sizes_init "32x" = Raise ValueError
  ∧ Sizes_init "any" = Ok (mkSizes "any")
  ∧ Sizes_init "ANY" = Ok (mkSizes "any")
  ∧ Sizes_init "any 32x32" = Raise ValueError
  ∧ render (mkSizes "any") = "sizes=" +:+ dquote +:+ "any" +:+ dquote.
Proof.
  split_and!; try run.
  - apply Sizes_init_ok.
  - apply Sizes_init_raise.
  - intros value token Hany Hin Hbad.
    destruct (Sizes_init value) as [r|e] eqn:Hinit.
    + apply Sizes_init_ok in Hinit as (_ & [[? _]|(_ & Hall & _)]); [done|].
      rewrite Forall_forall in Hall. destruct Hbad. by apply Hall.
    + by apply Sizes_init_raise in Hinit as ->.
Qed.

(** ** [Lang], [HTML] and [Page] *)

(** What [Lang.__init__] does on its own: it accepts the empty string and
    renders it as an empty value, and it hands every other string to
    [langcodes], storing the tag [to_tag] returns or turning the
    [LanguageTagError] into a [ValueError].  Which strings [langcodes]
    takes for BCP 47 tags, and which form it gives them, is decided in that
    package and not here. *)
Lemma Lang_init_cases (Language_get : string → option string) :
  Lang_init Language_get EmptyString = Ok (mkLang EmptyString)
  ∧ render (mkLang EmptyString) = "lang=" +:+ dquote +:+ dquote
  ∧ (∀ value tag,
        value ≠ EmptyString → Language_get value = Some tag →
        Lang_init Language_get value = Ok (mkLang tag)
        ∧ render (mkLang tag) = "lang=" +:+ dquote +:+ tag +:+ dquote)
  ∧ (∀ value,
        value ≠ EmptyString → is_valid_bcp47 Language_get value = false →
        Lang_init Language_get value = Raise ValueError).
Proof.
  unfold Lang_init, is_valid_bcp47. split_and!; try done.
  - intros value tag Hne ->. by rewrite decide_False.
  - intros value Hne Hbad. rewrite decide_False by done.
    by destruct (Language_get value).
Qed.

Lemma render_attributes_absent children :
  render_attributes (HTML None None children) = EmptyString.
Proof. reflexivity. Qed.

Lemma Page_render_concat html_element page :
  Page_init html_element = Ok page →
  Page_render page
  = Element_render DocType +:+ Element_render html_element.
Proof. destruct html_element; try done. by intros [= <-]. Qed.

(** C4.  The root built from [Lang] of [en], [Dir] of [ltr] and no children
    renders as the [html] tag with [lang] then [dir]; without attributes it
    renders as the bare tag pair, whatever the children list given, the
    absent slots adding nothing; a [Page] renders the doctype followed by
    its root. *)
Theorem HTML_render_spec (Language_get : string → option string) :
  Language_get "en" = Some "en" →
  ∃ lang dir page,
    Lang_init Language_get "en" = Ok lang
    ∧ Dir_init "ltr" = Ok dir
    ∧ Element_render (HTML_init (Some lang) (Some dir) (Some []))
      = "<html lang=" +:+ dquote +:+ "en" +:+ dquote
        +:+ " dir=" +:+ dquote +:+ "ltr" +:+ dquote +:+ "></html>"
    ∧ Element_render (HTML_init None None (Some [])) = "<html></html>"
    ∧ Element_render (HTML_init None None None) = "<html></html>"
    ∧ (∀ children, render_attributes (HTML None None children) = EmptyString)
    ∧ Page_init (HTML_init (Some lang) (Some dir) (Some [])) = Ok page
    ∧ Page_render page
      = "<!DOCTYPE html><html lang=" +:+ dquote +:+ "en" +:+ dquote
        +:+ " dir=" +:+ dquote +:+ "ltr" +:+ dquote +:+ "></html>"
    ∧ (∀ html_element page',
          Page_init html_element = Ok page' →
          Page_render page'
          = Element_render DocType +:+ Element_render html_element).
Proof.
  intros Hen. eexists (mkLang "en"), (mkDir "ltr"), _.
  split_and!; try reflexivity.
  - unfold Lang_init. by rewrite decide_False, Hen.
  - apply Page_render_concat.
Qed.

Lemma HTML_render_spec_witness :
  two_tags "en" = Some "en"
  ∧ ∃ lang, Lang_init two_tags "en" = Ok lang
      ∧ Element_render (HTML_init (Some lang) (Some (mkDir "ltr")) (Some []))
        = "<html lang=" +:+ dquote +:+ "en" +:+ dquote
          +:+ " dir=" +:+ dquote +:+ "ltr" +:+ dquote +:+ "></html>".
Proof.
  assert (two_tags "en" = Some "en") as H by reflexivity.
  split; [done|].
  destruct (HTML_render_spec two_tags H)
    as (lang & dir & page & Hlang & Hdir & Hhtml & _).
  exists lang. split; [done|].
  vm_compute in Hdir. injection Hdir as <-. exact Hhtml.
Defined.

(** ** Facts about cutting at a separator *)

Section SeparatorFacts.

Implicit Types (s a b : string) (sep c : ascii).

Lemma contains_app_sep sep a b : contains sep (a +:+ String sep b) = true.
Proof.
  induction a as [|c a IH]; simpl.
  - by rewrite bool_decide_eq_true_2.
  - rewrite IH. apply orb_true_r.
Qed.

Lemma split_once_app sep a b :
  contains sep a = false → split_once sep (a +:+ String sep b) = (a, Some b).
Proof.
  induction a as [|c a IH]; simpl.
  - intros _. by rewrite decide_True.
  - intros [Hc Ha]%orb_false_iff. apply bool_decide_eq_false in Hc.
    rewrite decide_False by done. by rewrite IH.
Qed.

Lemma split_once_Some sep s a b :
  split_once sep s = (a, Some b) →
  s = a +:+ String sep b ∧ contains sep a = false.
Proof.
  revert a. induction s as [|c s IH]; simpl; [done|]. intros a.
  destruct (decide (c = sep)) as [->|Hc].
  - by intros [= <- <-].
  - destruct (split_once sep s) as [a' b'] eqn:Hs. intros [= <- ->].
    destruct (IH a' eq_refl) as [-> Ha]. split; [done|]. simpl.
    by rewrite Ha, bool_decide_eq_false_2.
Qed.

Lemma split_once_None sep s a :
  split_once sep s = (a, None) → contains sep s = false.
Proof.
  revert a. induction s as [|c s IH]; simpl; [done|]. intros a.
  destruct (decide (c = sep)) as [->|Hc]; [done|].
  destruct (split_once sep s) as [a' b'] eqn:Hs. intros [= <- ->].
  by rewrite (IH a' eq_refl), bool_decide_eq_false_2.
Qed.

Lemma split_on_nonempty sep s : split_on sep s ≠ [].
Proof.
  destruct s as [|c s]; simpl; [done|].
  destruct (decide (c = sep)); [done|]. by destruct (split_on sep s).
Qed.

End SeparatorFacts.

(** ** [Type] *)

Section TypeFacts.

Variable urlopen : nat → response.

Lemma well_formed_parts value candidate params main params' t0 sub0 :
  strip <$> split_on ";" (strip value) = main :: params' →
  main = t0 +:+ String "/" sub0 →
  contains "/" t0 = false →
  well_formed value candidate params →
  params = params'
  ∧ TokenRe.fullmatch (strip t0) = true
  ∧ TokenRe.fullmatch (strip sub0) = true
  ∧ candidate = lower (strip t0) +:+ "/" +:+ lower (strip sub0).
Proof.
  intros Hsplit Hmain Ht0 (main' & t0' & sub0' & _ & Hsplit' & Hmain' & Ht0' & Ht & Hsub & ->).
  rewrite Hsplit in Hsplit'. injection Hsplit' as <- <-.
  pose proof (split_once_app "/" t0 sub0 Ht0) as H1.
  pose proof (split_once_app "/" t0' sub0' Ht0') as H2.
  simpl in Hmain'. rewrite <- Hmain in H1. rewrite <- Hmain' in H2.
  rewrite H1 in H2. injection H2 as <- <-. done.
Qed.

Lemma well_formed_inj value candidate params candidate' params' :
  well_formed value candidate params →
  well_formed value candidate' params' →
  candidate = candidate' ∧ params = params'.
Proof.
  intros (main & t0 & sub0 & _ & Hsplit & Hmain & Ht0 & _ & _ & ->) Hwf.
  simpl in Hmain.
  destruct (well_formed_parts _ _ _ _ _ _ _ Hsplit Hmain Ht0 Hwf)
    as (-> & _ & _ & ->). done.
Qed.

(** [Type.__init__] in two stages: the text is well formed or the
    constructor raises [ValueError] without looking at the registry; the
    registry lookup and its verdict come after. *)
Lemma Type_init_cases value strict st :
  (∃ candidate params,
      well_formed value candidate params
      ∧ Type_init urlopen value strict st
        = (match registry_verdict
                   (_try_load_iana_mime_types urlopen st).1 strict candidate
           with
           | Some e => Raise e
           | None => Ok (mkType (normalized candidate params))
           end,
           (_try_load_iana_mime_types urlopen st).2))
  ∨ ((∀ candidate params, ¬ well_formed value candidate params)
     ∧ Type_init urlopen value strict st = (Raise ValueError, st)).
Proof.
  unfold Type_init.
  destruct (decide (strip value = EmptyString)) as [He|He].
  { right. split; [|done]. intros c p (? & ? & ? & Hnb & _).
    by apply Hnb, strip_empty_iff. }
  destruct (strip <$> split_on ";" (strip value)) as [|main params] eqn:Hsplit.
  { apply fmap_nil_inv in Hsplit. by apply split_on_nonempty in Hsplit. }
  destruct (contains "/" main) eqn:Hslash; simpl.
  2: { right. split; [|done].
       intros c p (main' & t0 & sub0 & _ & Hs' & Hmain & _).
       rewrite Hsplit in Hs'. injection Hs' as <- <-.
       simpl in Hmain. by rewrite Hmain, contains_app_sep in Hslash. }
  destruct (split_once "/" main) as [t0 [sub0|]] eqn:Honce.
  2: { apply split_once_None in Honce. congruence. }
  apply split_once_Some in Honce as [Hmain Ht0].
  destruct (bool_decide (strip t0 = EmptyString)
            || bool_decide (strip sub0 = EmptyString)) eqn:Hempty.
  { right. split; [|done]. intros c p Hwf.
    destruct (well_formed_parts _ _ _ _ _ _ _ Hsplit Hmain Ht0 Hwf)
      as (_ & Ht & Hsub & _).
    apply orb_true_iff in Hempty as [H|H];
      apply bool_decide_eq_true in H; rewrite H in *; done. }
  destruct (negb (TokenRe.fullmatch (strip t0))
            || negb (TokenRe.fullmatch (strip sub0))) eqn:Htoken.
  { right. split; [|done]. intros c p Hwf.
    destruct (well_formed_parts _ _ _ _ _ _ _ Hsplit Hmain Ht0 Hwf)
      as (_ & Ht & Hsub & _).
    by rewrite Ht, Hsub in Htoken. }
  left. apply orb_false_iff in Htoken as [Ht Hsub].
  apply negb_false_iff in Ht, Hsub.
  exists (lower (strip t0) +:+ "/" +:+ lower (strip sub0)), params.
  split.
  - exists main, t0, sub0. split_and!; try done.
    by rewrite <- strip_empty_iff.
  - destruct (_try_load_iana_mime_types urlopen st) as [registry st'].
    simpl. by destruct (registry_verdict _ _ _).
Qed.

Lemma registry_verdict_in_force registry strict candidate :
  registry_verdict registry strict candidate
  = match in_force registry strict with
    | Some known =>
        if decide (candidate ∈ known) then None else Some ValueError
    | None => Some RuntimeError
    end.
Proof.
  unfold registry_verdict, in_force.
  destruct registry; [|destruct strict]; [|reflexivity|];
    do 2 case_decide; first [reflexivity|contradiction].
Qed.

Lemma Type_init_blank value strict st :
  blank value → Type_init urlopen value strict st = (Raise ValueError, st).
Proof.
  intros Hb. unfold Type_init. apply strip_empty_iff in Hb.
  by rewrite decide_True.
Qed.

End TypeFacts.

Lemma well_formed_image_png : well_formed "image/png" "image/png" [].
Proof. exists "image/png", "image", "png". by split_and!. Qed.


Lemma well_formed_trailing_separator :
  well_formed "image/png;" "image/png" [EmptyString].
Proof. exists "image/png", "image", "png". by split_and!. Qed.

Lemma image_png_fallback : "image/png" ∈ _FALLBACK_KNOWN.
Proof. apply (bool_decide_unpack _). vm_compute. exact I. Qed.


Lemma Type_init_well_formed urlopen value strict st candidate params :
  well_formed value candidate params →
  Type_init urlopen value strict st
  = (match in_force (_try_load_iana_mime_types urlopen st).1 strict with
     | Some known =>
         if decide (candidate ∈ known)
         then Ok (mkType (normalized candidate params))
         else Raise ValueError
     | None => Raise RuntimeError
     end,
     (_try_load_iana_mime_types urlopen st).2).
Proof.
  intros Hwf.
  destruct (Type_init_cases urlopen value strict st)
    as [(c & p & Hwf' & ->)|[Hno _]]; [|by destruct (Hno _ _ Hwf)].
  destruct (well_formed_inj _ _ _ _ _ Hwf Hwf') as [<- <-].
  rewrite registry_verdict_in_force.
  destruct (in_force _ _); [|done]. by case_decide.
Qed.

Lemma Type_init_malformed urlopen value strict st :
  (∀ candidate params, ¬ well_formed value candidate params) →
  Type_init urlopen value strict st = (Raise ValueError, st).
Proof.
  intros Hno.
  destruct (Type_init_cases urlopen value strict st)
    as [(c & p & Hwf & _)|[_ ->]]; [by destruct (Hno _ _ Hwf)|done].
Qed.

(** *** The token pattern *)

Section TokenPattern.

Implicit Types (s : string) (c : ascii).

#[local] Instance token_character_dec c : Decision (token_character c).
Proof. unfold token_character, in_range. apply _. Defined.

Lemma token_char_decide c :
  TokenRe.token_char c = bool_decide (token_character c).
Proof. by each_char c. Qed.

(** The character class of [_TOKEN_RE] holds the letters, the digits and
    the nine marks, and nothing else. *)
Lemma token_char_spec c : TokenRe.token_char c = true ↔ token_character c.
Proof. rewrite token_char_decide. apply bool_decide_eq_true. Qed.

Lemma all_chars_token s :
  all_chars TokenRe.token_char s = true
  ↔ Forall token_character (list_ascii_of_string s).
Proof.
  induction s as [|c s IH]; simpl.
  - split; [constructor|done].
  - by rewrite andb_true_iff, Forall_cons, IH, token_char_spec.
Qed.

(** [_TOKEN_RE.fullmatch] accepts the tokens of the specification and
    nothing else. *)
Lemma fullmatch_token s : TokenRe.fullmatch s = true ↔ token s.
Proof.
  unfold token. rewrite <- all_chars_token. destruct s; simpl; naive_solver.
Qed.


End TokenPattern.




(** C2.  When the lookup returns no registry: a strict caller gets
    [RuntimeError], which is not [ValueError], for every well-formed text,
    and no value at all is accepted; a caller that is not strict has the
    candidate checked against the fallback set, accepted when it is listed
    and rejected with [ValueError] when it is not.  A text that is not well
    formed is rejected with [ValueError] before the lookup, strict or not. *)
Theorem registry_unavailable_spec urlopen st :
  (_try_load_iana_mime_types urlopen st).1 = None →
  let st' := (_try_load_iana_mime_types urlopen st).2 in
  RuntimeError ≠ ValueError
  ∧ (∀ value candidate params,
        well_formed value candidate params →
        Type_init urlopen value true st = (Raise RuntimeError, st')
        ∧ (candidate ∈ _FALLBACK_KNOWN →
           Type_init urlopen value false st
           = (Ok (mkType (normalized candidate params)), st'))
        ∧ (candidate ∉ _FALLBACK_KNOWN →
           Type_init urlopen value false st = (Raise ValueError, st')))
  ∧ (∀ value r st'', Type_init urlopen value true st ≠ (Ok r, st''))
  ∧ (∀ value strict,
        (∀ candidate params, ¬ well_formed value candidate params) →
        Type_init urlopen value strict st = (Raise ValueError, st)).
Proof.
  intros Hnone st'. subst st'. split_and!; [done| | |].
  - intros value c p Hwf.
    rewrite !(Type_init_well_formed _ _ _ _ _ _ Hwf), Hnone. simpl.
    split_and!; [done| |].
    + intros H. by rewrite decide_True.
    + intros H. by rewrite decide_False.
  - intros value r st''.
    destruct (Type_init_cases urlopen value true st)
      as [(c & p & Hwf & _)|[_ ->]]; [|done].
    by rewrite (Type_init_well_formed _ _ _ _ _ _ Hwf), Hnone.
  - intros value strict Hno. by apply Type_init_malformed.
Qed.

Lemma registry_unavailable_spec_witness :
  (_try_load_iana_mime_types offline start).1 = None
  ∧ Type_init offline "image/png" true start
    = (Raise RuntimeError, mkProcess None true 1)
  ∧ Type_init offline "text/css" false start
    = (Ok (mkType "text/css"), mkProcess None true 1).
Proof.
  assert ((_try_load_iana_mime_types offline start).1 = None) as H
    by reflexivity.
  destruct (registry_unavailable_spec offline start H) as (_ & Hwf & _).
  destruct (Hwf "image/png" _ _ well_formed_image_png) as (Hstrict & _).
  split_and!; [done|done|reflexivity].
Defined.

(** C8, at an input that ends with the separator.  Whenever [image/png] is
    in the set in force, [Type] accepts the text [image/png] followed by a
    semicolon and stores the candidate followed by a semicolon and a space:
    the stored value ends with whitespace, and so does the value between the
    quotes of the rendered attribute. *)
Theorem Type_init_trailing_separator urlopen strict st known :
  in_force (_try_load_iana_mime_types urlopen st).1 strict = Some known →
  "image/png" ∈ known →
  Type_init urlopen "image/png;" strict st
  = (Ok (mkType "image/png; "), (_try_load_iana_mime_types urlopen st).2)
  ∧ render (mkType "image/png; ")
    = "type=" +:+ dquote +:+ "image/png; " +:+ dquote
  ∧ strip "image/png; " ≠ "image/png; ".
Proof.
  intros Hforce Hin.
  rewrite (Type_init_well_formed _ _ _ _ _ _ well_formed_trailing_separator).
  rewrite Hforce, decide_True by done. done.
Qed.

Lemma Type_init_trailing_separator_witness :
  Type_init offline "image/png;" false start
  = (Ok (mkType "image/png; "), mkProcess None true 1).
Proof.
  assert (in_force (_try_load_iana_mime_types offline start).1 false
          = Some _FALLBACK_KNOWN) as H by reflexivity.
  exact (proj1 (Type_init_trailing_separator offline false start _ H
                  image_png_fallback)).
Defined.

(** ** Stripping before validation *)

(** C10.  [Rel], [Sizes] and [Type] strip the raw input first: a string of
    whitespace only is rejected with the [ValueError] the empty string gets
    (by [Type] without a registry lookup); and the whitespace between tokens
    is not kept: when tokens are laid out with any whitespace before, between
    and after them, [Rel] stores their lower-cased forms and [Sizes], given
    two tokens or more, the tokens themselves, joined by single spaces, and
    that is the value rendered. *)
Theorem strip_before_validation :
  (∀ value,
      blank value →
      Rel_init value = Raise ValueError
      ∧ Rel_init value = Rel_init EmptyString
      ∧ Sizes_init value = Raise ValueError
      ∧ Sizes_init value = Sizes_init EmptyString
      ∧ ∀ urlopen strict st,
          Type_init urlopen value strict st = (Raise ValueError, st)
          ∧ Type_init urlopen value strict st
            = Type_init urlopen EmptyString strict st)
  ∧ (∀ lead items r,
        blank lead → well_spaced items →
        Rel_init (lead +:+ layout items) = Ok r →
        Rel_value r = join " " (lower <$> items.*1)
        ∧ render r
          = "rel=" +:+ dquote +:+ join " " (lower <$> items.*1) +:+ dquote)
  ∧ (∀ lead items r,
        blank lead → well_spaced items → (2 ≤ length items)%nat →
        Sizes_init (lead +:+ layout items) = Ok r →
        Sizes_value r = join " " items.*1
        ∧ render r = "sizes=" +:+ dquote +:+ join " " items.*1 +:+ dquote)
  ∧ Rel_init (" Icon" +:+ tab +:+ tab +:+ "  PRELOAD" +:+ tab)
    = Ok (mkRel "icon preload")
  ∧ Sizes_init (tab +:+ "16x16   " +:+ tab +:+ "32x32 ")
    = Ok (mkSizes "16x16 32x32").
Proof.
  split_and!; try run.
  - intros value Hb.
    assert (Rel_init value = Raise ValueError) as HR.
    { rewrite Rel_init_unfold. by rewrite decide_True. }
    assert (Sizes_init value = Raise ValueError) as HS.
    { unfold Sizes_init. apply strip_empty_iff in Hb. by rewrite decide_True. }
    split_and!; [done|by rewrite HR|done|by rewrite HS|].
    intros urlopen strict st. by rewrite !Type_init_blank.
  - intros lead items r Hlead Hitems Hinit.
    rewrite Rel_init_unfold in Hinit. repeat case_decide; try done.
    injection Hinit as <-. by rewrite split_layout.
  - intros lead items r Hlead Hitems Hlen Hinit.
    apply Sizes_init_ok in Hinit as (_ & [[Hany _]|(_ & _ & ->)]).
    + apply lower_any_single in Hany.
      rewrite split_strip, split_layout in Hany by done.
      apply (f_equal length) in Hany. rewrite length_fmap in Hany.
      simpl in Hany. lia.
    + by rewrite split_layout.
Qed.

(** ** The registry cache *)

Section CacheFacts.

Variable urlopen : nat → response.

Lemma cached_None st :
  cached st = None ↔ _iana_mime_types st = None ∧ _iana_failed st = false.
Proof.
  unfold cached. destruct (_iana_mime_types st), (_iana_failed st);
    naive_solver.
Qed.

Lemma cached_failed st :
  _iana_mime_types st = None → _iana_failed st = true →
  cached st = Some None.
Proof. unfold cached. by intros -> ->. Qed.

Lemma try_load_cached st answer :
  cached st = Some answer → _try_load_iana_mime_types urlopen st = (answer, st).
Proof. unfold _try_load_iana_mime_types. by intros ->. Qed.

Lemma try_load_fresh st :
  cached st = None →
  _try_load_iana_mime_types urlopen st
  = match urlopen (requests st) with
    | Failure => (None, mkProcess None true (S (requests st)))
    | Document root =>
        if decide (parse_registry root = ∅)
        then (None, mkProcess None true (S (requests st)))
        else (Some (parse_registry root),
              mkProcess (Some (parse_registry root)) false (S (requests st)))
    end.
Proof.
  intros Hc. unfold _try_load_iana_mime_types. rewrite Hc.
  apply cached_None in Hc as [Hm Hf]. simpl. rewrite Hm, Hf.
  destruct (urlopen (requests st)); [done|]. by case_decide.
Qed.

Lemma try_load_asked_once st :
  asked_once st → asked_once (_try_load_iana_mime_types urlopen st).2.
Proof.
  intros [Hle Hzero]. destruct (cached st) as [answer|] eqn:Hc.
  - rewrite (try_load_cached st answer Hc). simpl. split; [done|].
    by rewrite Hc.
  - rewrite (try_load_fresh st Hc), (Hzero eq_refl).
    destruct (urlopen 0); [|case_decide]; simpl; by split.
Qed.

Lemma Type_init_state value strict st :
  (Type_init urlopen value strict st).2 = st
  ∨ (Type_init urlopen value strict st).2
    = (_try_load_iana_mime_types urlopen st).2.
Proof.
  destruct (Type_init_cases urlopen value strict st)
    as [(c & p & _ & ->)|[_ ->]]; [by right|by left].
Qed.

Lemma Type_init_cached value strict st :
  cached st ≠ None → (Type_init urlopen value strict st).2 = st.
Proof.
  intros Hc. destruct (Type_init_state value strict st) as [->| ->]; [done|].
  destruct (cached st) as [answer|] eqn:E; [|done].
  by rewrite (try_load_cached st answer E).
Qed.

Lemma construct_all_asked_once calls st :
  asked_once st → asked_once (construct_all urlopen calls st).
Proof.
  revert st. induction calls as [|[value strict] calls IH]; [done|].
  intros st Hst. simpl. apply IH.
  destruct (Type_init_state value strict st) as [->| ->]; [done|].
  by apply try_load_asked_once.
Qed.

Lemma construct_all_cached calls st :
  cached st ≠ None → construct_all urlopen calls st = st.
Proof.
  induction calls as [|[value strict] calls IH]; [done|].
  intros Hc. simpl. rewrite Type_init_cached by done. by apply IH.
Qed.

End CacheFacts.


(** ** Threads *)

Section ThreadFacts.
Variable urlopen : nat → response.

Lemma cached_set_failed st : cached (set_failed st) ≠ None.
Proof. unfold cached. simpl. by destruct (_iana_mime_types st). Qed.

Ltac at_thread i j :=
  destruct (decide (i = j)) as [<-|?];
  [rewrite ?fn_lookup_insert | rewrite ?fn_lookup_insert_ne by done].

Lemma undecided_holding p : undecided p = true → holding p = true.
Proof. by destruct p. Qed.

Lemma recording_undecided p : recording p = true → undecided p = true.
Proof. by destruct p. Qed.

Lemma L203_holding p : p = L203 → holding p = true.
Proof. by intros ->. Qed.

Ltac thread_facts c Hlock H203 Hun Hgot Hgave j :=
  pose proof (Hlock j); pose proof (H203 j); pose proof (Hun j);
  pose proof (Hgot j); pose proof (Hgave j);
  pose proof (undecided_holding (at_pc c j));
  pose proof (L203_holding (at_pc c j)).

Lemma step_coherent c c' : step urlopen c c' → coherent c → coherent c'.
Proof.
  intros Hstep Hc.
  pose proof Hc as [Hlock H203 Hun Honce Hzero Hgot Hgave Heither].
  setoid_rewrite cached_None in Hun.
  inversion Hstep as
    [? i Hi|? i known Hi Hm|? i Hi Hm|? i Hi Hf|? i Hi Hf|? i Hi Hl
    |? i known Hi Hm|? i Hi Hm|? i Hi Hf|? i Hi Hf|? i Hi Hu|? i root Hi Hu
    |? i Hi|? i Hi|? i root Hi Hp|? i root Hi Hp|? i Hi|? i Hi
    |? i m Hi|? i m Hi|? i answer Hi]; subst; clear Hstep.
  all: pose proof (Hlock i) as Hli; pose proof (Hun i) as Hui;
       pose proof (H203 i) as H3i; pose proof (Hgot i) as Hgi;
       pose proof (Hgave i) as Hvi;
       rewrite Hi in Hli, Hui, H3i, Hgi, Hvi; simpl in Hli, Hui, H3i, Hgi, Hvi.
  all: split; simpl.
  (* the components about every thread *)
  all: try (intros j; thread_facts c Hlock H203 Hun Hgot Hgave j;
            clear Hlock H203 Hun Hgot Hgave Hzero Hc;
            at_thread i j; rewrite ?cached_None; simpl;
            intuition congruence).
  all: try assumption.
  all: try (clear Hzero; intuition congruence).
  all: rewrite cached_None in Hzero.
  (* one request at most *)
  all: try (destruct Hzero as [Hz|[Hz|[k Hk]]];
            [lia|tauto|];
            pose proof (Hlock k) as Hlk; pose proof (Hlock i) as Hli';
            pose proof (recording_undecided _ Hk) as Huk;
            apply undecided_holding in Huk;
            destruct (decide (i = k)) as [<-|Hne];
            [rewrite Hi in Hk; done|];
            rewrite Hi in Hli'; simpl in Hli';
            exfalso; apply Hne; intuition congruence).
  (* no request, or its outcome recorded or being recorded *)
  all: try first
    [ right; right; exists i; rewrite fn_lookup_insert; reflexivity
    | right; left; rewrite cached_None; simpl; clear Hzero;
      intuition congruence
    | destruct Hzero as [Hz|[Hz|[k Hk]]];
      [ left; assumption
      | right; left; rewrite cached_None; simpl; intuition congruence
      | destruct (decide (i = k)) as [<-|Hne];
        [ rewrite Hi in Hk; discriminate
        | right; right; exists k; by rewrite fn_lookup_insert_ne ] ] ].
  intros j mime_types. at_thread i j; simpl; [congruence|].
  intros Hj%Hgot. destruct Hui as [Hnone _]; congruence.
Qed.

Lemma reachable_coherent c : rtc (step urlopen) boot c → coherent c.
Proof.
  revert c. apply rtc_ind_r.
  - split; simpl; try done; try lia; try (by left).
  - intros c c' _ Hstep IH. by eapply step_coherent.
Qed.

Ltac advance rule :=
  eapply rtc_l;
  [ eapply rule; simpl; rewrite ?fn_lookup_insert;
    first [eassumption|reflexivity]
  | simpl ].

Lemma solo_run_exists c i :
  lock c = None → at_pc c i = Idle →
  ∃ c',
    rtc (step urlopen) c c'
    ∧ at_pc c' i = Returned (_try_load_iana_mime_types urlopen (shared c)).1
    ∧ shared c' = (_try_load_iana_mime_types urlopen (shared c)).2
    ∧ lock c' = None
    ∧ ∀ j, i ≠ j → at_pc c' j = at_pc c j.
Proof.
  intros Hlock Hidle. destruct c as [st l pcs]. simpl in *. subst l.
  unfold _try_load_iana_mime_types.
  destruct (_iana_mime_types st) as [known|] eqn:Hm.
  { unfold cached. rewrite Hm. eexists. split.
    - advance step_call. advance step_195_hit. apply rtc_refl.
    - unfold set_failed, set_mime_types, count_request. simpl.
      rewrite fn_lookup_insert, ?Hm, ?Hf. split_and!; try done.
      intros j Hne. by rewrite !fn_lookup_insert_ne. }
  destruct (_iana_failed st) eqn:Hf.
  { unfold cached. rewrite Hm, Hf. eexists. split.
    - advance step_call. advance step_195_miss. advance step_197_failed.
      apply rtc_refl.
    - unfold set_failed, set_mime_types, count_request. simpl.
      rewrite fn_lookup_insert, ?Hm, ?Hf. split_and!; try done.
      intros j Hne. by rewrite !fn_lookup_insert_ne. }
  unfold cached. rewrite Hm, Hf.
  destruct (urlopen (requests st)) as [|root] eqn:Hu.
  { eexists. split.
    - advance step_call. advance step_195_miss. advance step_197_go.
      advance step_200_acquire. advance step_201_miss. advance step_203_go.
      advance step_207_raises. advance step_211. advance step_212.
      apply rtc_refl.
    - unfold set_failed, set_mime_types, count_request. simpl.
      rewrite fn_lookup_insert, ?Hm, ?Hf. split_and!; try done.
      intros j Hne. by rewrite !fn_lookup_insert_ne. }
  destruct (decide (parse_registry root = ∅)) as [He|He].
  { eexists. split.
    - advance step_call. advance step_195_miss. advance step_197_go.
      advance step_200_acquire. advance step_201_miss. advance step_203_go.
      advance step_207_root. advance step_214_empty. advance step_243.
      advance step_244. apply rtc_refl.
    - unfold set_failed, set_mime_types, count_request. simpl.
      rewrite fn_lookup_insert, ?Hm, ?Hf. split_and!; try done.
      intros j Hne. by rewrite !fn_lookup_insert_ne. }
  eexists. split.
  - advance step_call. advance step_195_miss. advance step_197_go.
    advance step_200_acquire. advance step_201_miss. advance step_203_go.
    advance step_207_root. advance step_214_found. advance step_246.
    advance step_247. apply rtc_refl.
  - unfold set_failed, set_mime_types, count_request. simpl.
      rewrite fn_lookup_insert, ?Hm, ?Hf. split_and!; try done.
    intros j Hne. by rewrite !fn_lookup_insert_ne.
Qed.

(** X4.  A thread that runs the method alone, from outside it and with
    the lock free, can run it to the end; it then returns what
    [_try_load_iana_mime_types] returns in the state it started from, leaves
    the class attributes as that function leaves them, has released the
    lock, and has moved no other thread. *)
Theorem solo_run c i :
  lock c = None → at_pc c i = Idle →
  ∃ c',
    rtc (step urlopen) c c'
    ∧ at_pc c' i = Returned (_try_load_iana_mime_types urlopen (shared c)).1
    ∧ shared c' = (_try_load_iana_mime_types urlopen (shared c)).2
    ∧ lock c' = None
    ∧ ∀ j, i ≠ j → at_pc c' j = at_pc c j.
Proof. apply solo_run_exists. Qed.


(** X2.  Whatever the threads do and however their statements interleave,
    the process makes one request at most, and two threads are never inside
    the [with] block together. *)
Theorem threads_request_once c :
  rtc (step urlopen) boot c →
  (requests (shared c) ≤ 1)%nat
  ∧ ∀ i j,
      holding (at_pc c i) = true → holding (at_pc c j) = true → i = j.
Proof.
  intros Hc%reachable_coherent. split; [apply Hc|].
  intros i j Hi Hj. apply (coherent_lock c Hc) in Hi, Hj. congruence.
Qed.

(** X3.  What a thread returns is what the cache holds from then on: the
    set when one was stored, [None] when the failure was recorded; so all
    threads that have returned got the same answer. *)
Theorem threads_same_answer c :
  rtc (step urlopen) boot c →
  (∀ i answer,
      at_pc c i = Returned answer → cached (shared c) = Some answer)
  ∧ ∀ i j a b, at_pc c i = Returned a → at_pc c j = Returned b → a = b.
Proof.
  intros Hc%reachable_coherent.
  assert (∀ i answer,
            at_pc c i = Returned answer → cached (shared c) = Some answer)
    as Hanswer.
  { intros i [known|] Hi; unfold cached.
    - by rewrite (coherent_got c Hc i known) by (by rewrite Hi).
    - assert (_iana_failed (shared c) = true) as Hf
        by (apply (coherent_gave_up c Hc i); by rewrite Hi).
      by rewrite (coherent_either c Hc Hf), Hf. }
  split; [done|]. intros i j a b Hi%Hanswer Hj%Hanswer. congruence.
Qed.

End ThreadFacts.

Lemma threads_request_once_witness :
  ∃ c, rtc (step offline) boot c
       ∧ at_pc c 0%nat = Returned None
       ∧ requests (shared c) = 1%nat
       ∧ (requests (shared c) ≤ 1)%nat.
Proof.
  destruct (solo_run_exists offline boot 0 eq_refl eq_refl)
    as (c & Hrun & Hpc & Hshared & _).
  exists c. split_and!; [done|done|by rewrite Hshared|].
  exact (proj1 (threads_request_once offline c Hrun)).
Defined.

Lemma threads_same_answer_witness :
  ∃ c, rtc (step offline) boot c
       ∧ at_pc c 0%nat = Returned None
       ∧ cached (shared c) = Some None.
Proof.
  destruct (solo_run_exists offline boot 0 eq_refl eq_refl)
    as (c & Hrun & Hpc & _).
  exists c. split_and!; [done|done|].
  exact (proj1 (threads_same_answer offline c Hrun) 0%nat None Hpc).
Defined.

Lemma solo_run_witness :
  ∃ c, rtc (step online) boot c
       ∧ at_pc c 0%nat = Returned (Some {[ "image/png"; "image/svg+xml" ]})
       ∧ lock c = None.
Proof.
  destruct (solo_run online boot 0 eq_refl eq_refl)
    as (c & Hrun & Hpc & _ & Hlock & _).
  exists c. split_and!; [done| |done]. rewrite Hpc. f_equal.
Defined.

(** X1.  However many [Type] values a process builds, one after the other
    from a fresh interpreter, it makes one request at most. *)
Theorem requests_at_most_once urlopen calls :
  (requests (construct_all urlopen calls start) ≤ 1)%nat.
Proof.
  assert (asked_once start) as Hstart by (split; [simpl; lia|done]).
  apply (construct_all_asked_once urlopen calls start Hstart).
Qed.

Lemma try_load_caches urlopen st :
  cached (_try_load_iana_mime_types urlopen st).2
  = Some (_try_load_iana_mime_types urlopen st).1.
Proof.
  destruct (cached st) as [answer|] eqn:Hc.
  - by rewrite (try_load_cached urlopen st answer Hc).
  - rewrite (try_load_fresh urlopen st Hc).
    destruct (urlopen (requests st)); [done|]. by case_decide.
Qed.

(** X5.  After one lookup, in any state, every later lookup returns the
    answer of the first and changes nothing, and so does every later
    construction of a [Type]: a failure is never retried, a stored set never
    replaced. *)
Theorem lookup_stable urlopen st :
  let first := _try_load_iana_mime_types urlopen st in
  _try_load_iana_mime_types urlopen first.2 = (first.1, first.2)
  ∧ ∀ calls, construct_all urlopen calls first.2 = first.2.
Proof.
  simpl. pose proof (try_load_caches urlopen st) as Hc. split.
  - by apply try_load_cached.
  - intros calls. apply construct_all_cached. by rewrite Hc.
Qed.

(** C3.  The registry is requested at most once in the life of a process:
    however many [Type] values are built one after the other from a fresh
    interpreter, and however the statements of any number of threads
    interleave, the count of requests never exceeds one.  Once a lookup has
    completed, in whatever state it started, its outcome is cached: every
    later lookup returns the same answer and changes nothing, and every
    later construction of a [Type] leaves the class attributes and the count
    of requests as they are.  A request that fails sets the failure flag
    and stores no set; a request answered with a document that lists no
    media type is recorded as the same failure, as it is for a document
    without a listed registry; and from a state with the failure flag set
    every lookup returns [None] without a request, whatever was constructed
    in between. *)
Theorem fetch_at_most_once urlopen :
  (∀ calls, (requests (construct_all urlopen calls start) ≤ 1)%nat)
  ∧ (∀ c, rtc (step urlopen) boot c → (requests (shared c) ≤ 1)%nat)
  ∧ (∀ st,
        let first := _try_load_iana_mime_types urlopen st in
        cached first.2 = Some first.1
        ∧ _try_load_iana_mime_types urlopen first.2 = (first.1, first.2)
        ∧ (∀ calls, construct_all urlopen calls first.2 = first.2)
        ∧ (∀ value strict,
              (Type_init urlopen value strict first.2).2 = first.2))
  ∧ (∀ st,
        cached st = None → urlopen (requests st) = Failure →
        _try_load_iana_mime_types urlopen st
        = (None, mkProcess None true (S (requests st))))
  ∧ (∀ st root,
        cached st = None → urlopen (requests st) = Document root →
        parse_registry root = ∅ →
        _try_load_iana_mime_types urlopen st
        = (None, mkProcess None true (S (requests st))))
  ∧ (∀ st,
        _iana_mime_types st = None → _iana_failed st = true →
        ∀ calls,
          let later := construct_all urlopen calls st in
          later = st
          ∧ _try_load_iana_mime_types urlopen later = (None, later))
  ∧ _try_load_iana_mime_types (λ _, Document unlisted_document) start
    = (None, mkProcess None true 1).
Proof.
  split_and!.
  - intros calls.
    assert (asked_once start) as Hstart by (split; [simpl; lia|done]).
    apply (construct_all_asked_once urlopen calls start Hstart).
  - intros c Hc%reachable_coherent. apply Hc.
  - intros st. simpl. pose proof (try_load_caches urlopen st) as Hc.
    split_and!; [done|by apply try_load_cached| |].
    + intros calls. apply construct_all_cached. by rewrite Hc.
    + intros value strict. apply Type_init_cached. by rewrite Hc.
  - intros st Hc Hu. by rewrite (try_load_fresh urlopen st Hc), Hu.
  - intros st root Hc Hu He.
    by rewrite (try_load_fresh urlopen st Hc), Hu, decide_True.
  - intros st Hm Hf calls. simpl.
    pose proof (cached_failed st Hm Hf) as Hc.
    rewrite construct_all_cached by (by rewrite Hc).
    split; [done|]. by apply try_load_cached.
  - vm_compute. reflexivity.
Qed.

(** ** More facts about the string operations *)


Section MorePyStrFacts.

Implicit Types (s t w a b : string) (c sep : ascii).

Lemma app_assoc' a b s : (a +:+ b) +:+ s = a +:+ (b +:+ s).
Proof. induction a as [|c a IH]; simpl; [done|]. by rewrite IH. Qed.

Lemma app_empty_r s : s +:+ EmptyString = s.
Proof. induction s as [|c s IH]; simpl; [done|]. by rewrite IH. Qed.

Lemma all_chars_impl (P Q : ascii → bool) s :
  (∀ c, P c = true → Q c = true) →
  all_chars P s = true → all_chars Q s = true.
Proof.
  intros HPQ. induction s as [|c s IH]; simpl; [done|].
  intros [Hc Hs]%andb_true_iff. by rewrite (HPQ c Hc), IH.
Qed.

Lemma all_chars_app (P : ascii → bool) a b :
  all_chars P (a +:+ b) = all_chars P a && all_chars P b.
Proof.
  induction a as [|c a IH]; simpl; [done|]. by rewrite IH, andb_assoc.
Qed.

Lemma all_chars_contains (P : ascii → bool) sep s :
  P sep = false → all_chars P s = true → contains sep s = false.
Proof.
  intros Hsep. induction s as [|c s IH]; simpl; [done|].
  intros [Hc Hs]%andb_true_iff. rewrite (IH Hs), orb_false_r.
  apply bool_decide_eq_false. intros ->. congruence.
Qed.

Lemma lower_char_idem c : lower_char (lower_char c) = lower_char c.
Proof. each_char c. Qed.

Lemma lower_idem s : lower (lower s) = lower s.
Proof.
  induction s as [|c s IH]; simpl; [done|]. by rewrite lower_char_idem, IH.
Qed.

Lemma lower_app a b : lower (a +:+ b) = lower a +:+ lower b.
Proof. induction a as [|c a IH]; simpl; [done|]. by rewrite IH. Qed.

Lemma word_lower w : word w → word (lower w).
Proof.
  intros [Hne Hall]. split; [by destruct w|].
  clear Hne. induction w as [|c w IH]; simpl in *; [done|].
  apply andb_true_iff in Hall as [Hc Hw].
  by rewrite isspace_lower_char, Hc, IH.
Qed.

Lemma split_words s : Forall word (split s).
Proof.
  induction s as [|c s IH]; simpl; [constructor|].
  destruct (isspace c) eqn:Hc; [done|].
  assert (word (String c EmptyString)) as Hone.
  { apply word_cons. by split; [|left]. }
  destruct (starts_word s); [|by constructor].
  destruct (split s) as [|t ts]; simpl; [by constructor|].
  inversion IH as [|? ? Ht Hts]; subst. constructor; [|done].
  apply word_cons. split; [done|by right].
Qed.

Lemma split_nil s : split s = [] → blank s.
Proof.
  induction s as [|c s IH]; simpl; [done|].
  destruct (isspace c) eqn:Hc.
  - intros H. apply blank_cons. auto.
  - destruct (starts_word s); [|done]. by destruct (split s).
Qed.

Lemma starts_word_word w s : word w → starts_word (w +:+ s) = true.
Proof.
  intros [Hne Hall]. destruct w as [|c w]; [done|]. simpl in *.
  by apply andb_true_iff in Hall as [-> _].
Qed.

Lemma split_join ws : Forall word ws → split (join " " ws) = ws.
Proof.
  induction 1 as [|w ws Hw Hws IH]; [done|].
  destruct ws as [|w' ws].
  - simpl. rewrite <- (app_empty_r w) at 1. by rewrite split_word_app.
  - change (join " " (w :: w' :: ws))
      with (w +:+ " " +:+ join " " (w' :: ws)).
    rewrite split_word_app by done. f_equal.
    change (split (String " " (join " " (w' :: ws))) = w' :: ws).
    simpl split. exact IH.
Qed.

Lemma join_words_not_blank w ws :
  word w → ¬ blank (join " " (w :: ws)).
Proof.
  intros Hw Hb. apply starts_word_blank in Hb.
  destruct ws; simpl in Hb.
  - rewrite <- (app_empty_r w) in Hb. by rewrite starts_word_word in Hb.
  - by rewrite starts_word_word in Hb.
Qed.

End MorePyStrFacts.

(** X10.  The value [Rel] stores is a fixed point of [Rel]: building a
    [Rel] from the stored value of an accepted one succeeds and stores the
    same value. *)
Theorem Rel_init_idempotent value r :
  Rel_init value = Ok r → Rel_init (Rel_value r) = Ok r.
Proof.
  intros Hinit. rewrite Rel_init_unfold in Hinit.
  destruct (decide (blank value)) as [|Hnb]; [done|].
  destruct (decide (NoDup (lower <$> split value))) as [Hnd|]; [|done].
  injection Hinit as <-. simpl.
  assert (Forall word (lower <$> split value)) as Hwords.
  { apply Forall_fmap. eapply Forall_impl; [apply split_words|].
    intros w Hw. by apply word_lower. }
  assert (lower <$> (lower <$> split value) = lower <$> split value) as Hl.
  { rewrite <- list_fmap_compose. apply list_fmap_ext. intros ? w _.
    apply lower_idem. }
  rewrite Rel_init_unfold, split_join, Hl by done.
  rewrite decide_False, decide_True; [done|done|].
  destruct (split value) as [|t ts] eqn:Hsplit.
  { by apply split_nil in Hsplit. }
  simpl in *. inversion Hwords; subst. by apply join_words_not_blank.
Qed.

Lemma digit_not_space c : SizeRe.digit c = true → isspace c = false.
Proof. each_char c. Qed.

Lemma digit19_lower c : SizeRe.digit19 c = true → lower_char c = c.
Proof. each_char c. Qed.

Lemma positive_integer_all s :
  positive_integer s → all_chars (λ c, negb (isspace c)) s = true.
Proof.
  intros (_ & Hd & _). eapply all_chars_impl; [|exact Hd].
  intros c Hc. by rewrite digit_not_space.
Qed.

Lemma size_token_word t : size_token t → word t.
Proof.
  intros (w & h & -> & Hw & Hh). split.
  - destruct Hw as [Hne _]. by destruct w.
  - rewrite all_chars_app. simpl.
    by rewrite (positive_integer_all w), (positive_integer_all h).
Qed.

Lemma size_token_not_any t : size_token t → lower t ≠ "any".
Proof.
  intros Ht%fullmatch_spec. destruct t as [|c t]; [done|]. simpl in *.
  apply andb_true_iff in Ht as [Hc _]. rewrite (digit19_lower c Hc).
  intros [= -> _]. done.
Qed.

(** X11.  The value [Sizes] stores is a fixed point of [Sizes]: building
    a [Sizes] from the stored value of an accepted one succeeds and stores
    the same value. *)
Theorem Sizes_init_idempotent value r :
  Sizes_init value = Ok r → Sizes_init (Sizes_value r) = Ok r.
Proof.
  intros (Hnb & [[_ ->]|(_ & Hall & ->)])%Sizes_init_ok; [done|].
  simpl. assert (Forall word (split value)) as Hwords.
  { eapply Forall_impl; [exact Hall|]. apply size_token_word. }
  destruct (split value) as [|t ts] eqn:Hsplit.
  { by apply split_nil in Hsplit. }
  apply Sizes_init_ok. rewrite split_join by done. split.
  { inversion Hwords; subst. by apply join_words_not_blank. }
  right. split_and!; [|done|done].
  intros Hany. pose proof (lower_any_single _ Hany) as Hone.
  rewrite split_strip, split_join in Hone by done.
  injection Hone as Ht Hts. subst ts. simpl in *.
  inversion Hall; subst. rewrite <- Ht in Hany.
  by eapply size_token_not_any.
Qed.

Section StripFacts.

Implicit Types (s t a b : string) (c sep : ascii).

Lemma lstrip_starts_word s : starts_word s = true → lstrip s = s.
Proof.
  destruct s as [|c s]; [done|]. simpl.
  by intros ->%negb_true_iff.
Qed.

Lemma lstrip_cases s : lstrip s = EmptyString ∨ starts_word (lstrip s) = true.
Proof.
  induction s as [|c s IH]; simpl; [by left|].
  destruct (isspace c) eqn:Hc; [done|]. right. simpl. by rewrite Hc.
Qed.

Lemma rstrip_idem s : rstrip (rstrip s) = rstrip s.
Proof.
  induction s as [|c s IH]; [done|]. simpl.
  destruct (rstrip s) as [|c' r] eqn:Hr.
  - destruct (isspace c) eqn:Hc; [done|]. simpl. by rewrite Hc.
  - remember (String c' r) as r' eqn:Hr'. simpl. rewrite IH. by subst r'.
Qed.

Lemma lstrip_rstrip s : lstrip (rstrip s) = rstrip (lstrip s).
Proof.
  induction s as [|c s IH]; [done|].
  destruct (isspace c) eqn:Hc.
  - simpl lstrip at 2. rewrite Hc, <- IH. simpl.
    destruct (rstrip s) as [|c' r] eqn:Hr; rewrite ?Hc; [done|].
    simpl. by rewrite Hc.
  - rewrite (lstrip_starts_word (String c s)) by (simpl; by rewrite Hc).
    apply lstrip_starts_word. rewrite starts_word_rstrip.
    + simpl. by rewrite Hc.
    + simpl. destruct (rstrip s); [by rewrite Hc|done].
Qed.

Lemma lstrip_idem s : lstrip (lstrip s) = lstrip s.
Proof.
  destruct (lstrip_cases s) as [->|H]; [done|]. by apply lstrip_starts_word.
Qed.

Lemma strip_idem s : strip (strip s) = strip s.
Proof.
  unfold strip. by rewrite lstrip_rstrip, lstrip_idem, rstrip_idem.
Qed.

End StripFacts.

Section SplitOnFacts.

Implicit Types (s t a b : string) (c sep : ascii).

Lemma contains_lstrip sep s :
  isspace sep = false → contains sep (lstrip s) = contains sep s.
Proof.
  intros Hsep. induction s as [|c s IH]; [done|]. simpl.
  destruct (isspace c) eqn:Hc; [|done].
  rewrite IH, bool_decide_eq_false_2; [done|]. intros ->. congruence.
Qed.

Lemma contains_rstrip sep s :
  isspace sep = false → contains sep (rstrip s) = contains sep s.
Proof.
  intros Hsep. induction s as [|c s IH]; [done|]. simpl.
  destruct (rstrip s) as [|c' r] eqn:Hr.
  - rewrite <- IH. simpl. destruct (isspace c) eqn:Hc; simpl; [|done].
    rewrite bool_decide_eq_false_2; [done|]. intros ->. congruence.
  - remember (String c' r) as r'. simpl. by rewrite IH.
Qed.

Lemma contains_strip sep s :
  isspace sep = false → contains sep (strip s) = contains sep s.
Proof.
  intros Hsep. unfold strip. by rewrite contains_rstrip, contains_lstrip.
Qed.

Lemma split_on_app sep a b :
  contains sep a = false →
  split_on sep (a +:+ String sep b) = a :: split_on sep b.
Proof.
  induction a as [|c a IH]; simpl.
  - intros _. by rewrite decide_True.
  - intros [Hc Ha]%orb_false_iff. apply bool_decide_eq_false in Hc.
    by rewrite decide_False, IH.
Qed.

Lemma split_on_none sep s : contains sep s = false → split_on sep s = [s].
Proof.
  induction s as [|c s IH]; simpl; [done|].
  intros [Hc Hs]%orb_false_iff. apply bool_decide_eq_false in Hc.
  by rewrite decide_False, IH.
Qed.

Lemma split_on_pieces sep s :
  Forall (λ p, contains sep p = false) (split_on sep s).
Proof.
  induction s as [|c s IH]; simpl; [by constructor|].
  destruct (decide (c = sep)) as [->|Hc]; [by constructor|].
  destruct (split_on sep s) as [|t ts]; simpl.
  - constructor; [|done]. simpl. by rewrite bool_decide_eq_false_2.
  - inversion IH; subst. constructor; [|done]. simpl.
    rewrite bool_decide_eq_false_2 by done. done.
Qed.

Lemma blank_no_sep sep s :
  isspace sep = false → blank s → contains sep s = false.
Proof. intros Hsep Hb. by eapply all_chars_contains. Qed.

Lemma rstrip_split_on sep s :
  isspace sep = false →
  rstrip <$> split_on sep (rstrip s) = rstrip <$> split_on sep s.
Proof.
  intros Hsep. induction s as [|c s IH]; [done|].
  cbn [rstrip]. destruct (rstrip s) as [|c' r] eqn:Hr.
  - apply rstrip_empty in Hr.
    cbn [split_on]. rewrite (split_on_none sep s) by (by apply blank_no_sep).
    destruct (decide (c = sep)) as [->|Hc].
    + rewrite Hsep. simpl. rewrite decide_True by done. simpl.
      by rewrite (rstrip_blank s).
    + destruct (isspace c) eqn:Hws; simpl.
      * by rewrite (rstrip_blank s), Hws.
      * rewrite decide_False by done. simpl.
        by rewrite (rstrip_blank s), Hws.
  - remember (String c' r) as r' eqn:Hr'. cbn [split_on].
    destruct (decide (c = sep)); [by rewrite !fmap_cons, IH|].
    destruct (split_on sep r') as [|t ts], (split_on sep s) as [|t' ts'];
      rewrite ?fmap_cons, ?fmap_nil in IH; try done.
    injection IH as Ht Hts. cbn [push_char]. rewrite !fmap_cons.
    cbn [rstrip]. by rewrite Ht, Hts.
Qed.

Lemma strip_split_on sep s :
  isspace sep = false →
  strip <$> split_on sep (rstrip s) = strip <$> split_on sep s.
Proof.
  intros Hsep.
  assert (∀ l : list string, strip <$> l = lstrip <$> (rstrip <$> l)) as Hs.
  { intros l. rewrite <- list_fmap_compose. apply list_fmap_ext.
    intros ? x _. simpl. unfold strip. by rewrite lstrip_rstrip. }
  by rewrite !Hs, rstrip_split_on.
Qed.

End SplitOnFacts.

Section TokenFacts.

Implicit Types (s t a b : string) (c sep : ascii).

Lemma token_char_lower c :
  TokenRe.token_char c = true → TokenRe.token_char (lower_char c) = true.
Proof. each_char c. Qed.

Lemma token_char_not_space c :
  TokenRe.token_char c = true → negb (isspace c) = true.
Proof. each_char c. Qed.

Lemma fullmatch_all s :
  TokenRe.fullmatch s = true ↔
  s ≠ EmptyString ∧ all_chars TokenRe.token_char s = true.
Proof. destruct s; simpl; naive_solver. Qed.

Lemma all_chars_lower (P : ascii → bool) s :
  (∀ c, P c = true → P (lower_char c) = true) →
  all_chars P s = true → all_chars P (lower s) = true.
Proof.
  intros HP. induction s as [|c s IH]; simpl; [done|].
  intros [Hc Hs]%andb_true_iff. by rewrite (HP c Hc), IH.
Qed.

Lemma fullmatch_lower s :
  TokenRe.fullmatch s = true → TokenRe.fullmatch (lower s) = true.
Proof.
  rewrite !fullmatch_all. intros [Hne Hall]. split; [by destruct s|].
  apply all_chars_lower; [apply token_char_lower|done].
Qed.

Lemma strip_no_space s :
  all_chars (λ c, negb (isspace c)) s = true → strip s = s.
Proof.
  intros Hall. unfold strip.
  assert (lstrip s = s) as ->.
  { destruct s as [|c s]; [done|]. simpl in *.
    by apply andb_true_iff in Hall as [->%negb_true_iff _]. }
  induction s as [|c s IH]; [done|]. simpl in *.
  apply andb_true_iff in Hall as [Hc%negb_true_iff Hs].
  rewrite (IH Hs). destruct s; [by rewrite Hc|done].
Qed.

Lemma contains_app sep a b :
  contains sep (a +:+ b) = contains sep a || contains sep b.
Proof.
  induction a as [|c a IH]; simpl; [done|]. by rewrite IH, orb_assoc.
Qed.

Lemma strip_space_cons s : strip (String " " s) = strip s.
Proof. done. Qed.

Lemma split_params p :
  p ≠ [] →
  Forall (λ q, strip q = q ∧ contains ";" q = false) p →
  strip <$> split_on ";" (String " " (join "; " p)) = p.
Proof.
  intros Hne Hp. induction Hp as [|q qs [Hq Hsep] Hqs IH]; [done|].
  destruct qs as [|q' qs].
  - simpl join. rewrite split_on_none by done.
    simpl. by rewrite strip_space_cons, Hq.
  - change (String " " (join "; " (q :: q' :: qs)))
      with (String " " q +:+ String ";" (String " " (join "; " (q' :: qs)))).
    rewrite split_on_app by done. rewrite fmap_cons, IH by done.
    by rewrite strip_space_cons, Hq.
Qed.

Lemma split_normalized candidate params :
  candidate ≠ EmptyString →
  all_chars (λ c, negb (isspace c)) candidate = true →
  contains ";" candidate = false →
  Forall (λ q, strip q = q ∧ contains ";" q = false) params →
  strip <$> split_on ";" (strip (normalized candidate params))
  = candidate :: params.
Proof.
  intros Hne Hall Hsep Hp. destruct params as [|q qs].
  - simpl. rewrite strip_no_space, split_on_none by done.
    simpl. by rewrite strip_no_space.
  - unfold normalized, strip.
    rewrite (lstrip_starts_word (candidate +:+ _)).
    2: { destruct candidate as [|c s]; [done|]. simpl in *.
         by apply andb_true_iff in Hall as [-> _]. }
    rewrite strip_split_on by done.
    change (candidate +:+ "; " +:+ join "; " (q :: qs))
      with (candidate +:+ String ";" (String " " (join "; " (q :: qs)))).
    rewrite split_on_app, fmap_cons, split_params by done.
    by rewrite strip_no_space.
Qed.

Lemma params_stripped value main params :
  strip <$> split_on ";" (strip value) = main :: params →
  Forall (λ q, strip q = q ∧ contains ";" q = false) params.
Proof.
  intros Hsplit.
  assert (Forall (λ q, strip q = q ∧ contains ";" q = false)
            (strip <$> split_on ";" (strip value))) as Hall.
  { apply Forall_fmap. eapply Forall_impl; [apply split_on_pieces|].
    intros q Hq. simpl. split; [apply strip_idem|].
    by rewrite contains_strip. }
  rewrite Hsplit in Hall. by inversion Hall.
Qed.

Lemma well_formed_normalized value candidate params :
  well_formed value candidate params →
  well_formed (normalized candidate params) candidate params.
Proof.
  intros (main & t0 & sub0 & Hnb & Hsplit & Hmain & Ht0 & Ht & Hsub & ->).
  remember (lower (strip t0)) as t eqn:Et.
  remember (lower (strip sub0)) as sub eqn:Esub.
  assert (TokenRe.fullmatch t = true) as Hlt
    by (subst t; by apply fullmatch_lower).
  assert (TokenRe.fullmatch sub = true) as Hls
    by (subst sub; by apply fullmatch_lower).
  pose proof (proj1 (fullmatch_all t) Hlt) as [Htne Htall].
  pose proof (proj1 (fullmatch_all sub) Hls) as [Hsne Hsall].
  assert (∀ s, all_chars TokenRe.token_char s = true →
               all_chars (λ c, negb (isspace c)) s = true) as Hnospace.
  { intros s. apply all_chars_impl, token_char_not_space. }
  assert (all_chars (λ c, negb (isspace c)) (t +:+ "/" +:+ sub) = true)
    as Hall.
  { rewrite all_chars_app. simpl. by rewrite !Hnospace. }
  assert (strip <$> split_on ";" (strip (normalized (t +:+ "/" +:+ sub) params))
          = (t +:+ "/" +:+ sub) :: params) as Hsplit'.
  { apply split_normalized; [by destruct t|done| |by eapply params_stripped].
    rewrite contains_app. simpl.
    by rewrite !(all_chars_contains TokenRe.token_char). }
  exists (t +:+ "/" +:+ sub), t, sub. split_and!; try done.
  - intros Hb%strip_empty_iff. rewrite Hb in Hsplit'.
    injection Hsplit' as Hc _. by destruct t.
  - by apply (all_chars_contains TokenRe.token_char).
  - by rewrite strip_no_space by auto.
  - by rewrite strip_no_space by auto.
  - rewrite !strip_no_space by auto. subst t sub. by rewrite !lower_idem.
Qed.

End TokenFacts.

(** X13.  The value [Type] stores is made of the input and of nothing
    else.  Cut the stripped input at its semicolons and strip the pieces:
    the first piece is a type [t0], a slash and a subtype [sub0], and the
    stored value is the stripped type and subtype in lower case around a
    slash, both tokens of the specification's pattern, followed, when there
    are other pieces, by every one of them, in their order and as they are
    in the input but for the whitespace around them (so in the case the
    caller wrote them in), each after a semicolon and a space.  No stored
    parameter starts or ends with whitespace or holds a semicolon. *)
Theorem Type_value_shape urlopen value strict st r st' :
  Type_init urlopen value strict st = (Ok r, st') →
  ∃ main t0 sub0 params t sub,
    strip <$> split_on ";" (strip value) = main :: params
    ∧ main = t0 +:+ "/" +:+ sub0
    ∧ contains "/" t0 = false
    ∧ t = lower (strip t0) ∧ sub = lower (strip sub0)
    ∧ Type_value r = normalized (t +:+ "/" +:+ sub) params
    ∧ Type_value r
      = match params with
        | [] => t +:+ "/" +:+ sub
        | _ :: _ => t +:+ "/" +:+ sub +:+ "; " +:+ join "; " params
        end
    ∧ token t ∧ token sub
    ∧ TokenRe.fullmatch t = true ∧ TokenRe.fullmatch sub = true
    ∧ lower t = t ∧ lower sub = sub
    ∧ Forall (λ q, strip q = q ∧ contains ";" q = false) params.
Proof.
  intros Hinit.
  destruct (Type_init_cases urlopen value strict st)
    as [(c & p & Hwf & Hcase)|[_ Hbad]]; [|congruence].
  rewrite Hcase in Hinit. destruct (registry_verdict _ _ _); [done|].
  injection Hinit as <- _.
  destruct Hwf as (main & t0 & sub0 & _ & Hsplit & Hmain & Ht0 & Ht & Hsub & ->).
  exists main, t0, sub0, p, (lower (strip t0)), (lower (strip sub0)). simpl.
  split_and!; try done.
  - unfold normalized. destruct p; [done|].
    by rewrite !app_assoc'.
  - by apply fullmatch_token, fullmatch_lower.
  - by apply fullmatch_token, fullmatch_lower.
  - by apply fullmatch_lower.
  - by apply fullmatch_lower.
  - apply lower_idem.
  - apply lower_idem.
  - by eapply params_stripped.
Qed.

Lemma Type_value_shape_witness :
  Type_init offline " Image / PNG ;Charset=UTF-8 ; Q=0.8" false start
  = (Ok (mkType "image/png; Charset=UTF-8; Q=0.8"), mkProcess None true 1)
  ∧ ∃ params,
      strip <$> split_on ";" (strip " Image / PNG ;Charset=UTF-8 ; Q=0.8")
      = "Image / PNG" :: params
      ∧ params = ["Charset=UTF-8"; "Q=0.8"]
      ∧ "image/png; Charset=UTF-8; Q=0.8" = normalized "image/png" params.
Proof.
  assert (Type_init offline " Image / PNG ;Charset=UTF-8 ; Q=0.8" false start
          = (Ok (mkType "image/png; Charset=UTF-8; Q=0.8"),
             mkProcess None true 1))
    as H by (vm_compute; reflexivity).
  split; [done|].
  destruct (Type_value_shape _ _ _ _ _ _ H)
    as (main & t0 & sub0 & params & t & sub & Hsplit & _).
  exists params. split; [|split].
  - rewrite Hsplit. f_equal.
    change (strip <$> split_on ";" (strip " Image / PNG ;Charset=UTF-8 ; Q=0.8"))
      with ["Image / PNG"; "Charset=UTF-8"; "Q=0.8"] in Hsplit.
    congruence.
  - change (strip <$> split_on ";" (strip " Image / PNG ;Charset=UTF-8 ; Q=0.8"))
      with ["Image / PNG"; "Charset=UTF-8"; "Q=0.8"] in Hsplit.
    congruence.
  - change (strip <$> split_on ";" (strip " Image / PNG ;Charset=UTF-8 ; Q=0.8"))
      with ["Image / PNG"; "Charset=UTF-8"; "Q=0.8"] in Hsplit.
    injection Hsplit as _ <-. reflexivity.
Defined.

(** X12.  The value [Type] stores is a fixed point of [Type]: in the state
    the first construction leaves, building a [Type] from the stored value
    succeeds, stores the same value and leaves the state as it is. *)
Theorem Type_init_idempotent urlopen value strict st r st' :
  Type_init urlopen value strict st = (Ok r, st') →
  Type_init urlopen (Type_value r) strict st' = (Ok r, st').
Proof.
  intros Hinit.
  destruct (Type_init_cases urlopen value strict st)
    as [(c & p & Hwf & _)|[_ Hbad]]; [|congruence].
  rewrite (Type_init_well_formed _ _ _ _ _ _ Hwf) in Hinit.
  destruct (in_force _ _) as [known|] eqn:Hforce; [|done].
  case_decide as Hin; [|done]. injection Hinit as <- <-. simpl.
  rewrite (Type_init_well_formed _ _ _ _ _ _ (well_formed_normalized _ _ _ Hwf)).
  rewrite (try_load_cached urlopen _ _ (try_load_caches urlopen st)). simpl.
  by rewrite Hforce, decide_True.
Qed.

(** ** The registry document *)


Section ScanFacts.

Lemma scan_elem_listed vars elem top :
  listed_registry elem = Some top → scan_elem vars elem = (vars.1, Some top).
Proof.
  destruct vars as [mimes current]. unfold listed_registry, scan_elem.
  case_decide; [|done]. destruct (ET_attrib elem !! "id"); [|done].
  case_decide; [|done]. by intros [= ->].
Qed.

Lemma scan_elem_record mimes top elem subtype :
  listed_registry elem = None →
  record_subtype elem = Some subtype →
  scan_elem (mimes, Some top) elem
  = ({[ lower (top +:+ "/" +:+ subtype) ]} ∪ mimes, Some top).
Proof.
  unfold listed_registry, record_subtype, scan_elem.
  destruct (decide (_strip_ns (ET_tag elem) = "record")) as [Hr|];
    [|intros _ ?; discriminate].
  rewrite Hr. rewrite decide_False by done.
  intros _. destruct (find_name elem); [|intros ?; discriminate].
  case_decide; [intros ?; discriminate|]. by intros [= ->].
Qed.

Lemma scan_elem_cases vars elem :
  (∃ top, listed_registry elem = Some top
          ∧ scan_elem vars elem = (vars.1, Some top))
  ∨ (listed_registry elem = None
     ∧ ∃ top subtype,
         vars.2 = Some top ∧ record_subtype elem = Some subtype
         ∧ scan_elem vars elem
           = ({[ lower (top +:+ "/" +:+ subtype) ]} ∪ vars.1, Some top))
  ∨ (listed_registry elem = None ∧ scan_elem vars elem = vars).
Proof.
  destruct (listed_registry elem) as [top|] eqn:Hl.
  { left. exists top. split; [done|]. by apply scan_elem_listed. }
  right. destruct vars as [mimes [top|]], (record_subtype elem) as [subtype|] eqn:Hr.
  - left. split; [done|]. exists top, subtype. split_and!; try done.
    by apply scan_elem_record.
  - right. split; [done|]. revert Hl Hr.
    unfold listed_registry, record_subtype, scan_elem.
    case_decide as H1.
    + destruct (ET_attrib elem !! "id"); [|done]. by case_decide.
    + intros _. case_decide as H2; [|done].
      destruct (find_name elem); [|done]. by case_decide.
  - right. split; [done|]. revert Hl.
    unfold listed_registry, scan_elem.
    case_decide as H1; [|done].
    destruct (ET_attrib elem !! "id"); [|done]. by case_decide.
  - right. split; [done|]. revert Hl.
    unfold listed_registry, scan_elem.
    case_decide as H1; [|done].
    destruct (ET_attrib elem !! "id"); [|done]. by case_decide.
Qed.

End ScanFacts.

Section FoldFacts.

Lemma listed_in_top_levels elem top :
  listed_registry elem = Some top → top ∈ top_levels.
Proof.
  unfold listed_registry. case_decide; [|done].
  destruct (ET_attrib elem !! "id"); [|done].
  case_decide; [|done]. by intros [= <-].
Qed.

Lemma record_not_listed elem subtype :
  record_subtype elem = Some subtype → listed_registry elem = None.
Proof.
  unfold record_subtype, listed_registry.
  case_decide as Hr; [|done]. intros _. rewrite Hr. by rewrite decide_False.
Qed.

Lemma scan_sound root l vars :
  (∀ elem, elem ∈ l → elem ∈ ET_iter root) →
  (∀ top, vars.2 = Some top →
          ∃ reg, reg ∈ ET_iter root ∧ listed_registry reg = Some top) →
  (∀ m, m ∈ vars.1 → filed root m) →
  ∀ m, m ∈ (foldl scan_elem vars l).1 → filed root m.
Proof.
  revert vars. induction l as [|elem l IH]; intros vars Hl Htop Hm; [done|].
  simpl. apply IH.
  - intros e He. apply Hl. by right.
  - assert (elem ∈ ET_iter root) as He by (apply Hl; by left).
    destruct (scan_elem_cases vars elem)
      as [(top & Hlist & ->)|[(_ & top & subtype & Hv & _ & ->)|[_ ->]]];
      simpl; [|by intros ? [= <-]; apply Htop|done].
    intros ? [= <-]. by exists elem.
  - assert (elem ∈ ET_iter root) as He by (apply Hl; by left).
    destruct (scan_elem_cases vars elem)
      as [(top & Hlist & ->)|[(_ & top & subtype & Hv & Hrec & ->)|[_ ->]]];
      simpl; [done| |done].
    intros m [->%elem_of_singleton|Hin]%elem_of_union; [|by apply Hm].
    destruct (Htop top Hv) as (reg & Hreg & Hlisted).
    by exists reg, elem, top, subtype.
Qed.

Lemma scan_grows l vars m :
  m ∈ vars.1 → m ∈ (foldl scan_elem vars l).1.
Proof.
  revert vars. induction l as [|elem l IH]; intros vars Hm; [done|].
  simpl. apply IH.
  destruct (scan_elem_cases vars elem)
    as [(top & _ & ->)|[(_ & top & subtype & _ & _ & ->)|[_ ->]]];
    simpl; [done| |done].
  apply elem_of_union. by right.
Qed.

Lemma scan_keeps_top l vars top :
  Forall (λ elem, listed_registry elem = None) l →
  vars.2 = Some top → (foldl scan_elem vars l).2 = Some top.
Proof.
  intros Hl. revert vars. induction Hl as [|elem l He Hl IH]; [done|].
  intros vars Hv. simpl. apply IH.
  destruct (scan_elem_cases vars elem)
    as [(top' & Hlist & _)|[(_ & top' & subtype & Hv' & _ & ->)|[_ ->]]];
    simpl; [congruence|congruence|done].
Qed.

End FoldFacts.

Lemma parse_registry_filed root m :
  m ∈ parse_registry root → filed root m.
Proof.
  unfold parse_registry. apply scan_sound; simpl; [done|done|].
  intros ? ?%not_elem_of_empty. done.
Qed.

(** X6.  Every media type the parser extracts is the lower-cased pair of
    the id of a registry element of the document, one of [top_levels], and
    the stripped, non-empty text of the first [name] child of a record
    element of the document. *)
Theorem parse_registry_sound root m :
  m ∈ parse_registry root → filed root m.
Proof. apply parse_registry_filed. Qed.

(** X7.  A record is filed under the nearest listed registry before it in
    document order, whether or not the record lies inside that registry: a
    record of a registry that is not listed goes to the listed registry
    that precedes it. *)
Theorem parse_registry_nearest root pre reg mid rec post top subtype :
  ET_iter root = (pre ++ reg :: mid ++ rec :: post)%list →
  listed_registry reg = Some top →
  Forall (λ elem, listed_registry elem = None) mid →
  record_subtype rec = Some subtype →
  lower (top +:+ "/" +:+ subtype) ∈ parse_registry root.
Proof.
  intros Hiter Hreg Hmid Hrec. unfold parse_registry.
  rewrite Hiter, foldl_app. simpl. rewrite foldl_app. simpl.
  apply scan_grows.
  rewrite (scan_elem_listed _ reg top Hreg).
  set (vars := foldl scan_elem _ mid).
  assert (vars.2 = Some top) as Hv by (by apply scan_keeps_top).
  destruct vars as [mimes current]. simpl in Hv. subst current.
  rewrite (scan_elem_record mimes top rec subtype);
    [|by eapply record_not_listed|done].
  simpl. apply elem_of_union. left. by apply elem_of_singleton.
Qed.

(** X8.  From a document without a registry element whose id is in
    [top_levels] nothing is extracted. *)
Theorem parse_registry_unlisted root :
  (∀ elem, elem ∈ ET_iter root → listed_registry elem = None) →
  parse_registry root = ∅.
Proof.
  intros Hnone. apply leibniz_equiv. intros m. split; [|by intros ?%not_elem_of_empty].
  intros (reg & rec & top & subtype & Hreg & _ & Hlisted & _)%parse_registry_filed.
  by rewrite (Hnone reg Hreg) in Hlisted.
Qed.

Lemma parse_registry_sound_witness :
  "image/svg+xml" ∈ parse_registry sample_document
  ∧ filed sample_document "image/svg+xml".
Proof.
  assert ("image/svg+xml" ∈ parse_registry sample_document) as Hin.
  { apply (bool_decide_unpack _). vm_compute. exact I. }
  split; [done|]. exact (parse_registry_sound sample_document _ Hin).
Defined.

Lemma parse_registry_nearest_witness :
  "font/ivs" ∈ parse_registry haptics_document.
Proof.
  set (record := λ subtype : string,
         mkElement "record" ∅ None [mkElement "name" ∅ (Some subtype) []]).
  apply (parse_registry_nearest haptics_document
           [haptics_document]
           (mkElement "registry" {[ "id" := "font" ]} None [record "woff"])
           [record "woff"; mkElement "name" ∅ (Some "woff") [];
            mkElement "registry" {[ "id" := "haptics" ]} None [record "ivs"]]
           (record "ivs")
           [mkElement "name" ∅ (Some "ivs") []]
           "font" "ivs").
  - reflexivity.
  - vm_compute. reflexivity.
  - repeat constructor; vm_compute; reflexivity.
  - vm_compute. reflexivity.
Defined.

Lemma parse_registry_unlisted_witness : parse_registry unlisted_document = ∅.
Proof.
  apply parse_registry_unlisted. intros elem Hin. simpl ET_iter in Hin.
  repeat (apply elem_of_cons in Hin as [->|Hin]; [vm_compute; reflexivity|]).
  by apply elem_of_nil in Hin.
Defined.

(** ** [_strip_ns] *)

(** X9.  [_strip_ns] cuts a tag after its first closing brace, which
    removes a namespace written in braces in front of it, and leaves a tag
    without a closing brace as it is. *)
Theorem strip_ns_spec ns tag :
  contains "}" ns = false →
  _strip_ns (ns +:+ String "}" tag) = tag ∧ _strip_ns ns = ns.
Proof.
  intros Hns. unfold _strip_ns. rewrite split_once_app by done. split; [done|].
  destruct (split_once "}" ns) as [a [b|]] eqn:Hs.
  - apply split_once_Some in Hs as [-> _].
    by rewrite contains_app_sep in Hns.
  - clear Hns. revert a Hs. induction ns as [|c ns IH]; simpl.
    + by intros a [= <-].
    + intros a. case_decide; [done|].
      destruct (split_once "}" ns) as [a' b']. intros [= <- ->].
      by rewrite (IH a' eq_refl).
Qed.

Lemma strip_ns_spec_witness :
  _strip_ns "{http://www.iana.org/assignments}record" = "record"
  ∧ _strip_ns "record" = "record".
Proof.
  split.
  - exact (proj1 (strip_ns_spec "{http://www.iana.org/assignments" "record"
                    eq_refl)).
  - exact (proj2 (strip_ns_spec "record" EmptyString eq_refl)).
Defined.

(** ** Rendering of elements *)


Ltac string_norm :=
  unfold render, Lang_render, Dir_render, Charset_render, Name_render,
    Content_render, Rel_render, Href_render, Type_render, Sizes_render,
    key_value;
  repeat (progress (cbn; rewrite ?app_assoc')).

Lemma join_empty_cons p ps :
  join EmptyString (p :: ps) = p +:+ join EmptyString ps.
Proof. destruct ps; simpl; [by rewrite app_empty_r|done]. Qed.

Lemma render_children_app xs ys :
  render_children (xs ++ ys) = render_children xs +:+ render_children ys.
Proof.
  unfold render_children. induction xs as [|x xs IH]; [done|].
  rewrite <- app_comm_cons, !map_cons, !join_empty_cons, IH.
  by rewrite app_assoc'.
Qed.

(** X14.  A [LinkIcon] renders its attributes in the order [rel], [href],
    [type], [sizes], one space before each; an absent [type] or [sizes] adds
    nothing, not even a space. *)
Theorem LinkIcon_render rel href type_ sizes :
  Element_render (LinkIcon rel href type_ sizes)
  = "<link " +:+ render rel +:+ " " +:+ render href
    +:+ slot type_ +:+ slot sizes +:+ ">".
Proof.
  destruct type_, sizes; cbn; string_norm; reflexivity.
Qed.

Lemma HTML_render lang dir children :
  Element_render (HTML lang dir children)
  = "<html" +:+ slot lang +:+ slot dir +:+ ">"
    +:+ render_children children +:+ "</html>".
Proof.
  destruct lang, dir; cbn; string_norm; reflexivity.
Qed.

(** X15.  A container renders its children in their order and without a
    separator: the rendering of a list of children followed by another is
    the rendering of the first followed by that of the second, between the
    tags of the container. *)
Theorem container_render_app xs ys lang dir :
  Element_render (Body (xs ++ ys))
  = "<body>" +:+ render_children xs +:+ render_children ys +:+ "</body>"
  ∧ Element_render (Head (xs ++ ys))
    = "<head>" +:+ render_children xs +:+ render_children ys +:+ "</head>"
  ∧ Element_render (HTML lang dir (xs ++ ys))
    = "<html" +:+ slot lang +:+ slot dir +:+ ">"
      +:+ render_children xs +:+ render_children ys +:+ "</html>".
Proof.
  split_and!.
  - change (Element_render (Body (xs ++ ys)))
      with ("<body>" +:+ render_children (xs ++ ys) +:+ "</body>").
    by rewrite render_children_app, app_assoc'.
  - change (Element_render (Head (xs ++ ys)))
      with ("<head>" +:+ render_children (xs ++ ys) +:+ "</head>").
    by rewrite render_children_app, app_assoc'.
  - by rewrite HTML_render, render_children_app, app_assoc'.
Qed.

(** X16.  [Charset] is built exactly from [utf-8] and [latin-1]; any other
    value is turned away by the argument check; [MetaCharset] renders the
    accepted value unchanged. *)
Theorem Charset_init_spec :
  (∀ value c,
      Charset_init value = Ok c ↔
      value ∈ ["utf-8"; "latin-1"] ∧ c = mkCharset value)
  ∧ (∀ value,
        value ∉ ["utf-8"; "latin-1"] →
        Charset_init value = Raise TypeCheckError)
  ∧ (∀ value c,
        Charset_init value = Ok c →
        Element_render (MetaCharset c)
        = "<meta charset=" +:+ dquote +:+ value +:+ dquote +:+ ">").
Proof.
  unfold Charset_init, check_Literal. split_and!.
  - intros value c. case_bool_decide; naive_solver.
  - intros value Hout. by case_bool_decide.
  - intros value c. case_bool_decide; [|done]. intros [= <-].
    cbn. string_norm. reflexivity.
Qed.

(** X17.  [Href] rejects the empty string and nothing else, and stores
    and renders every other value as it is: it does not strip, so a value of
    whitespace only, which [Rel] rejects, is accepted. *)
Theorem Href_init_spec value :
  (Href_init value = Raise ValueError ↔ value = EmptyString)
  ∧ (value ≠ EmptyString →
     Href_init value = Ok (mkHref value)
     ∧ render (mkHref value) = "href=" +:+ dquote +:+ value +:+ dquote)
  ∧ (blank value → value ≠ EmptyString →
     Href_init value = Ok (mkHref value)
     ∧ Rel_init value = Raise ValueError).
Proof.
  unfold Href_init. split_and!.
  - case_decide; naive_solver.
  - intros Hne. by rewrite decide_False.
  - intros Hb Hne. rewrite decide_False by done. split; [done|].
    rewrite Rel_init_unfold. by rewrite decide_True.
Qed.

Lemma EXT_TO_MIME_values ext mime :
  _EXT_TO_MIME !! ext = Some mime →
  mime ∈ ["image/png"; "image/svg+xml"; "image/x-icon"; "image/jpeg";
          "image/webp"; "image/gif"].
Proof.
  unfold _EXT_TO_MIME. intros H.
  repeat (apply lookup_insert_Some in H as [[_ <-]|[_ H]];
          [repeat first [by left|right]|]).
  apply lookup_singleton_Some in H as [_ <-].
  repeat first [by left|right].
Qed.

(** X18.  Whatever type [Icon] infers from a suffix, and it infers the same
    from the suffix in lower case, is listed in [Type._FALLBACK_KNOWN]: without a
    registry, [Type] accepts it for a caller that is not strict and stores
    it unchanged. *)
Theorem infer_type_known suffix mime :
  _infer_type_from_path suffix = Some mime →
  _infer_type_from_path (lower suffix) = Some mime
  ∧ mime ∈ _FALLBACK_KNOWN
  ∧ ∀ urlopen st,
      (_try_load_iana_mime_types urlopen st).1 = None →
      Type_init urlopen mime false st
      = (Ok (mkType mime), (_try_load_iana_mime_types urlopen st).2).
Proof.
  unfold _infer_type_from_path. rewrite lower_idem. intros Hin. split; [done|].
  apply EXT_TO_MIME_values in Hin.
  assert (mime ∈ _FALLBACK_KNOWN ∧ well_formed mime mime []) as [Hk Hwf].
  { rewrite !elem_of_cons, elem_of_nil in Hin.
    destruct Hin as [->|[->|[->|[->|[->|[->|[]]]]]]];
      (split; [apply (bool_decide_unpack _); vm_compute; exact I|]).
    - exists "image/png", "image", "png". by split_and!.
    - exists "image/svg+xml", "image", "svg+xml". by split_and!.
    - exists "image/x-icon", "image", "x-icon". by split_and!.
    - exists "image/jpeg", "image", "jpeg". by split_and!.
    - exists "image/webp", "image", "webp". by split_and!.
    - exists "image/gif", "image", "gif". by split_and!. }
  split; [done|]. intros urlopen st Hnone.
  rewrite (Type_init_well_formed _ _ _ _ _ _ Hwf), Hnone. simpl.
  by rewrite decide_True.
Qed.

Lemma infer_type_known_witness :
  _infer_type_from_path ".PNG" = Some "image/png"
  ∧ Type_init offline "image/png" false start
    = (Ok (mkType "image/png"), mkProcess None true 1).
Proof.
  assert (_infer_type_from_path ".PNG" = Some "image/png") as H
    by (vm_compute; reflexivity).
  split; [done|].
  destruct (infer_type_known ".PNG" "image/png" H) as (_ & _ & Hinit).
  exact (Hinit offline start eq_refl).
Defined.

(** ** Runs of the re-validation theorems *)

Lemma Rel_init_idempotent_witness :
  Rel_init (" Icon" +:+ tab +:+ "PRELOAD ") = Ok (mkRel "icon preload")
  ∧ Rel_init "icon preload" = Ok (mkRel "icon preload").
Proof.
  assert (Rel_init (" Icon" +:+ tab +:+ "PRELOAD ")
          = Ok (mkRel "icon preload")) as H by (vm_compute; reflexivity).
  split; [done|]. exact (Rel_init_idempotent _ _ H).
Defined.

Lemma Sizes_init_idempotent_witness :
  Sizes_init (" 16x16" +:+ tab +:+ "32x32 ") = Ok (mkSizes "16x16 32x32")
  ∧ Sizes_init "16x16 32x32" = Ok (mkSizes "16x16 32x32").
Proof.
  assert (Sizes_init (" 16x16" +:+ tab +:+ "32x32 ")
          = Ok (mkSizes "16x16 32x32")) as H by (vm_compute; reflexivity).
  split; [done|]. exact (Sizes_init_idempotent _ _ H).
Defined.

Lemma Type_init_idempotent_witness :
  Type_init offline "Image/PNG;q=1;" false start
  = (Ok (mkType "image/png; q=1; "), mkProcess None true 1)
  ∧ Type_init offline "image/png; q=1; " false (mkProcess None true 1)
    = (Ok (mkType "image/png; q=1; "), mkProcess None true 1).
Proof.
  assert (Type_init offline "Image/PNG;q=1;" false start
          = (Ok (mkType "image/png; q=1; "), mkProcess None true 1)) as H
    by (vm_compute; reflexivity).
  split; [done|]. exact (Type_init_idempotent _ _ _ _ _ _ H).
Defined.
